(** * The ELO playout policy of Pachi (playout/elo.c)

    A shallow embedding of [elo_get_probdist], [playout_elo_choose],
    [playout_elo_assess] and [playout_elo_init], and the properties of
    them that the specification states.

    Conventions of the embedding.
    - A C [double] is a value of a type [D] with the operations of the
      class [Double]; no law of arithmetic is assumed, so what is proved
      for every [D] holds for IEEE binary64 ([binary64_double]) as it
      does for exact rationals ([Q_double]).  Properties that need the
      order and the field laws are proved for the rationals.
    - A C array is a function from its index; writing [a[i] = v] is
      [<[i:=v]> a].  Parallel arrays that share one counter
      ([coords]/[items], [browtotals_i]/[browtotals_v]) are one list of
      pairs whose length is the counter.
    - [assert] and [abort] end the call with [Aborts]; [exit(1)] ends
      [playout_elo_init] with [Exits 1], a write past the end of its
      buffer of 256 bytes with [Overruns]. *)

From Stdlib Require Import ZArith QArith Qabs Lqa Lia String Ascii PrimFloat.
From stdpp Require Import base tactics option list functions gmap sorting.
From Equations Require Import Equations.

Local Open Scope Z_scope.

(** ** Arithmetic on [double] *)

Class Double (D : Type) := {
  d_zero : D;
  d_one : D;
  d_add : D -> D -> D;
  d_sub : D -> D -> D;
  d_mul : D -> D -> D;
  d_div : D -> D -> D;
  d_abs : D -> D;          (* fabs *)
  d_ltb : D -> D -> bool;  (* x < y *)
  d_leb : D -> D -> bool   (* x <= y, and y >= x *)
}.

Declare Scope double_scope.
Delimit Scope double_scope with D.
Infix "+" := d_add : double_scope.
Infix "-" := d_sub : double_scope.
Infix "*" := d_mul : double_scope.
Infix "/" := d_div : double_scope.
Infix "<?" := d_ltb : double_scope.
Infix "<=?" := d_leb : double_scope.

(** Exact arithmetic. *)
#[export] Instance Q_double : Double Q := {
  d_zero := 0%Q;
  d_one := 1%Q;
  d_add := Qplus;
  d_sub := Qminus;
  d_mul := Qmult;
  d_div := Qdiv;
  d_abs := Qabs;
  d_ltb := fun x y => negb (Qle_bool y x);
  d_leb := Qle_bool
}.

(** IEEE 754 binary64, the [double] of the platforms Pachi runs on. *)
#[export] Instance binary64_double : Double float := {
  d_zero := 0%float;
  d_one := 1%float;
  d_add := PrimFloat.add;
  d_sub := PrimFloat.sub;
  d_mul := PrimFloat.mul;
  d_div := PrimFloat.div;
  d_abs := PrimFloat.abs;
  d_ltb := PrimFloat.ltb;
  d_leb := PrimFloat.leb
}.

(** ** Coordinates, stones, moves, features *)

Definition coord_t : Type := Z.

(** Modelled from the spec: the "pass sentinel" of move.h, which is not
    among the sources; any value that is no board coordinate would do. *)
Definition pass : coord_t := -1.

Definition is_pass (c : coord_t) : bool := bool_decide (c = pass).

Inductive stone : Type := S_NONE | S_BLACK | S_WHITE | S_OFFBOARD.

#[export] Instance stone_eq_dec : EqDecision stone.
Proof. solve_decision. Defined.

Record move : Type := { coord : coord_t; color : stone }.

(** A feature is its (feature-kind, payload) pair, the key of the gamma
    table. *)
Definition feature : Type := Z * Z.

(** Control: a call returns, or the process is terminated. *)
Inductive abort_reason : Type :=
| ko_color_assertion        (* elo.c:199 *)
| local_overstab            (* elo.c:232-235 *)
| rebuilt_total_assertion.  (* elo.c:257 *)

Inductive outcome (A : Type) : Type :=
| Returns (a : A)
| Aborts (why : abort_reason).
Arguments Returns {A} a.
Arguments Aborts {A} why.

#[export] Instance outcome_ret : MRet outcome := fun A a => Returns a.
#[export] Instance outcome_bind : MBind outcome := fun A B k m =>
  match m with
  | Returns a => k a
  | Aborts why => Aborts why
  end.

Ltac unfold_outcome :=
  unfold mbind, mret, outcome_bind, outcome_ret in *.

(** [struct features_gamma]: the table of the gammas, a finite map. *)
Abbreviation features_gamma D := (gmap feature D).

Section Elo.
Context {D : Type} `{Double D}.
Local Open Scope double_scope.

Notation "0" := d_zero : double_scope.
Notation "1" := d_one : double_scope.

(** ** The gamma table *)

(** Modelled from the spec: [feature_gamma] of pattern.h, which is not
    among the sources: "lookup(feature-id) -> weight, with default 1 on
    miss". *)
Definition feature_gamma (fg : features_gamma D) (ft : feature) : D :=
  default 1 (fg !! ft).

(** ** The distribution (probdist.h, not among the sources) *)

(** [pd_size] stands for [pd->b], of which only [board_size] is read. *)
Record probdist : Type := {
  pd_size : Z;
  items : coord_t -> D;      (* [c] = weight of location c *)
  rowtotals : Z -> D;        (* [y] = sum of the items of row y *)
  total : D                  (* sum of all items *)
}.

(** Modelled from the spec: the partition of a location is its board
    row; coordinates number the points row by row. *)
Definition coord_y (c : coord_t) (size : Z) : Z := Z.quot c size.

Definition probdist_one (pd : probdist) (c : coord_t) : D := items pd c.
Definition probdist_total (pd : probdist) : D := total pd.

(** Modelled from the spec: [probdist_set], "overwrite a location's
    weight; updates total and the owning partition sum by the delta". *)
Definition probdist_set (pd : probdist) (c : coord_t) (val : D) : probdist :=
  let y := coord_y c (pd_size pd) in
  {| pd_size := pd_size pd;
     items := <[c := val]> (items pd);
     rowtotals := <[y := rowtotals pd y + (val - items pd c)]> (rowtotals pd);
     total := total pd + (val - items pd c) |}.

(** Modelled from the spec: [probdist_mute].  Muting takes the weight of
    the location out of the total and out of the sum of its row, which
    is what [probdist_set pd c 0] does to the two sums.  The entry of
    the location itself stays: elo.c reads it back with [probdist_one]
    right after muting (line 208), hands the muted locations to the
    sampler as a list to skip, and its repair step (lines 260-265) puts
    back the two sums and nothing else. *)
Definition probdist_mute (pd : probdist) (c : coord_t) : probdist :=
  let y := coord_y c (pd_size pd) in
  {| pd_size := pd_size pd;
     items := items pd;
     rowtotals := <[y := rowtotals pd y - items pd c]> (rowtotals pd);
     total := total pd - items pd c |}.

(** [probdist_alloca]: a distribution of zeros. *)
Definition probdist_alloca (size : Z) : probdist :=
  {| pd_size := size; items := fun _ => 0; rowtotals := fun _ => 0; total := 0 |}.

(** Two distributions with the same contents. *)
Definition pd_same (p q : probdist) : Prop :=
  pd_size p = pd_size q /\ total p = total q /\
  (forall y, rowtotals p y = rowtotals q y) /\
  (forall c, items p c = items q c).

(** ** The board (board.h, not among the sources)

    A board is what elo.c reads from it: the list of free points
    [f[0..flen)], the ko and the last move, the gamma table, the two
    per-side distributions, and the answers of the queries
    [board_is_valid_move], [board_is_one_point_eye] and
    [foreach_8neighbor] (the neighbours in the order the macro yields
    them; it yields eight, and the arrays of [playout_elo_choose] have
    room for eight and the ko point). *)
Record board : Type := {
  board_size : Z;
  f : list coord_t;
  ko : move;
  last_move : move;
  gamma : features_gamma D;
  prob : stone -> probdist;          (* b->prob[color - 1] *)
  board_is_valid_move : move -> bool;
  board_is_one_point_eye : coord_t -> stone -> bool;
  neighbors8 : coord_t -> list coord_t
}.

(** [b] with the distribution of [to_play] replaced. *)
Definition with_prob (b : board) (to_play : stone) (pd : probdist) : board :=
  {| board_size := board_size b; f := f b; ko := ko b; last_move := last_move b;
     gamma := gamma b;
     prob := <[to_play := pd]> (prob b);
     board_is_valid_move := board_is_valid_move b;
     board_is_one_point_eye := board_is_one_point_eye b;
     neighbors8 := neighbors8 b |}.

(** ** The pattern matcher (pattern.h, not among the sources) *)

(** [pattern_spec]: one mask per feature kind. *)
Definition pattern_spec : Type := Z -> Z.

Variable pattern_config : Type.
Variable pattern_match : pattern_config -> pattern_spec -> board -> move -> list feature.

Record patternset : Type := {
  ps : pattern_spec;
  pc : pattern_config;
  fg : features_gamma D
}.

(** ** elo_get_probdist (elo.c:57-115) *)

(** Lines 100-108: the product of the gammas of the matched features. *)
Definition pattern_gamma (pset : patternset) (b : board) (m : move) : D :=
  fold_left (fun g ft => g * feature_gamma (fg pset) ft)
            (pattern_match (pc pset) (ps pset) b m) 1.

(** One round of the loop over [b->f]; the state is [(moves, pd)]. *)
Definition elo_get_probdist_step (pset : patternset) (b : board) (to_play : stone)
    (st : Z * probdist) (c : coord_t) : Z * probdist :=
  let m := {| coord := c; color := to_play |} in
  if is_pass (coord m) then (st.1, probdist_set st.2 (coord m) 0)
  else if negb (board_is_valid_move b m) then (st.1, probdist_set st.2 (coord m) 0)
  else if board_is_one_point_eye b (coord m) to_play then
    (st.1, probdist_set st.2 (coord m) 0)
  else ((st.1 + 1)%Z, probdist_set st.2 (coord m) (pattern_gamma pset b m)).

Definition elo_get_probdist (pset : patternset) (b : board) (to_play : stone)
    (pd : probdist) : Z * probdist :=
  fold_left (elo_get_probdist_step pset b to_play) (f b) (0%Z, pd).

(** What the specification says of a candidate. *)
Definition skipped (b : board) (to_play : stone) (c : coord_t) : bool :=
  is_pass c
  || negb (board_is_valid_move b {| coord := c; color := to_play |})
  || board_is_one_point_eye b c to_play.

(** The product of a list of weights, starting from 1. *)
Definition d_product (ws : list D) : D := fold_left d_mul ws 1.

Definition table_weight (fg : features_gamma D) (ft : feature) : D :=
  match fg !! ft with
  | Some g => g
  | None => 1
  end.

Definition team_gamma (pset : patternset) (b : board) (to_play : stone)
    (c : coord_t) : D :=
  if skipped b to_play c then 0
  else d_product (map (table_weight (fg pset))
                  (pattern_match (pc pset) (ps pset) b {| coord := c; color := to_play |})).

(** ** playout_elo_choose (elo.c:118-268, the BOARD_GAMMA variant) *)

(** Absent from the sources: the threshold of probdist.h, the index of
    the contiguity feature of pattern.h, the sampler of probdist.c and
    the incremental update of board.c.  The sampler reads the
    distribution and the array of the locations to skip, and returns a
    location or [pass]; the random numbers it draws are its own. *)
Variable PROBDIST_EPSILON : D.
Variable FEAT_CONTIGUITY : Z.
Variable probdist_pick : probdist -> list coord_t -> coord_t.
Variable board_gamma_update : board -> coord_t -> stone -> probdist -> probdist.

(** [struct elo_policy]; the callback carries its [callback_data]. *)
Record elo_policy : Type := {
  selfatari : D;
  choose : patternset;
  assess : patternset;
  callback : option (board -> stone -> probdist -> probdist)
}.

(** [struct lprobdist]: [lpd_entries] is [coords[0..n)] with
    [items[0..n)], [browtotals] is [browtotals_i[0..browtotals_n)] with
    [browtotals_v[0..browtotals_n)]. *)
Record lprobdist : Type := {
  lpd_entries : list (coord_t * D);
  lpd_total : D;
  btotal : D;
  browtotals : list (Z * D)
}.

(** The locals of one call: [ignores[0..ignores_n)], [lpd] and [*pd]. *)
Record choose_state : Type := {
  ignores : list coord_t;
  lpd : lprobdist;
  pd : probdist
}.

(** Lines 183-190: append, then swap the last two when out of order. *)
Definition ignores_add (ign : list coord_t) (c_ : coord_t) : list coord_t :=
  match last ign with
  | Some prev =>
      if bool_decide (c_ < prev)%Z then removelast ign ++ [c_; prev]
      else ign ++ [c_]
  | None => ign ++ [c_]
  end.

(** The macro [ignore_move] (lines 182-195). *)
Definition ignore_move (st : choose_state) (c_ : coord_t) : choose_state :=
  let rowi := coord_y c_ (pd_size (pd st)) in
  {| ignores := ignores_add (ignores st) c_;
     lpd := {| lpd_entries := lpd_entries (lpd st);
               lpd_total := lpd_total (lpd st);
               btotal := btotal (lpd st);
               browtotals := browtotals (lpd st) ++ [(rowi, rowtotals (pd st) rowi)] |};
     pd := probdist_mute (pd st) c_ |}.

(** The gamma of the contiguity feature, [b->gamma->gamma[FEAT_CONTIGUITY][1]]. *)
Definition contiguity_gamma (b : board) : D :=
  feature_gamma (gamma b) (FEAT_CONTIGUITY, 1%Z).

(** The body of the loop over the 8 neighbours (lines 206-211). *)
Definition contiguity_step (b : board) (st : choose_state) (c : coord_t) : choose_state :=
  let st := ignore_move st c in
  let val := probdist_one (pd st) c * contiguity_gamma b in
  {| ignores := ignores st;
     lpd := {| lpd_entries := lpd_entries (lpd st) ++ [(c, val)];
               lpd_total := lpd_total (lpd st) + val;
               btotal := btotal (lpd st);
               browtotals := browtotals (lpd st) |};
     pd := pd st |}.

(** Lines 197-201. *)
Definition choose_ko (b : board) (to_play : stone) (st : choose_state)
    : outcome choose_state :=
  if negb (is_pass (coord (ko b))) then
    if decide (color (ko b) = to_play) then Returns (ignore_move st (coord (ko b)))
    else Aborts ko_color_assertion
  else Returns st.

(** Lines 203-213. *)
Definition choose_contiguity (b : board) (st : choose_state) : choose_state :=
  if negb (is_pass (coord (last_move b))) then
    fold_left (contiguity_step b) (neighbors8 b (coord (last_move b))) st
  else st.

(** Lines 170-180: the locals after the callback, if any, has run.  The
    backup [btotal] is taken before it runs. *)
Definition choose_entry (pp : elo_policy) (b : board) (to_play : stone)
    : choose_state :=
  let pd0 := prob b to_play in
  let lpd0 := {| lpd_entries := []; lpd_total := 0;
                 btotal := total pd0; browtotals := [] |} in
  let pd1 := match callback pp with
             | Some cb => cb b to_play pd0
             | None => pd0
             end in
  {| ignores := []; lpd := lpd0; pd := pd1 |}.

(** Lines 170-213: the locals when the move is about to be picked. *)
Definition choose_prepare (pp : elo_policy) (b : board) (to_play : stone)
    : outcome choose_state :=
  st ← choose_ko b to_play (choose_entry pp b to_play);
  mret (choose_contiguity b st).

(** Line 215: the array handed to the sampler. *)
Definition ignores_array (st : choose_state) : list coord_t :=
  ignores st ++ [pass].

(** Lines 221 and 225-231: [c] stays [pass] when no entry matches. *)
Fixpoint lpd_scan (stab : D) (entries : list (coord_t * D)) : coord_t :=
  match entries with
  | [] => pass
  | (c, item) :: rest =>
      if stab <=? item then c else lpd_scan (stab - item) rest
  end.

(** Line 222; [frand] is what [fast_frandom()] returned. *)
Definition choose_stab (st : choose_state) (frand : D) : D :=
  frand * (lpd_total (lpd st) + total (pd st)).

(** Lines 220-244. *)
Definition choose_pick (st : choose_state) (frand : D) : outcome coord_t :=
  let stab := choose_stab st frand in
  if stab <? lpd_total (lpd st) - PROBDIST_EPSILON then
    let c := lpd_scan stab (lpd_entries (lpd st)) in
    if is_pass c then Aborts local_overstab else Returns c
  else if PROBDIST_EPSILON <=? total (pd st) then
    Returns (probdist_pick (pd st) (ignores_array st))
  else Returns pass.

(** Lines 250-256: the rebuild after a callback. *)
Definition choose_rebuild (b : board) (to_play : stone) (d : probdist) : probdist :=
  let cleared :=
    {| pd_size := pd_size d;
       items := items d;
       rowtotals := fold_left (fun r i => <[i := 0]> r) (seqZ 0 (pd_size d)) (rowtotals d);
       total := 0 |} in
  fold_left
    (fun d c =>
       board_gamma_update b c to_play
         {| pd_size := pd_size d; items := <[c := 0]> (items d);
            rowtotals := rowtotals d; total := total d |})
    (f b) cleared.

(** Lines 260-265: the backups are written back last to first. *)
Definition choose_restore (l : lprobdist) (d : probdist) : probdist :=
  {| pd_size := pd_size d;
     items := items d;
     rowtotals := fold_left (fun r iv => <[iv.1 := iv.2]> r)
                    (reverse (browtotals l)) (rowtotals d);
     total := btotal l |}.

(** Lines 246-266. *)
Definition choose_repair (pp : elo_policy) (b : board) (to_play : stone)
    (st : choose_state) : outcome probdist :=
  match callback pp with
  | Some _ =>
      let d := choose_rebuild b to_play (pd st) in
      if d_abs (total d - btotal (lpd st)) <? PROBDIST_EPSILON then Returns d
      else Aborts rebuilt_total_assertion
  | None => Returns (choose_restore (lpd st) (pd st))
  end.

(** The call: the coordinate returned, and the board with the
    distribution of [to_play] as the call leaves it. *)
Definition playout_elo_choose (pp : elo_policy) (b : board) (to_play : stone)
    (frand : D) : outcome (coord_t * board) :=
  st ← choose_prepare pp b to_play;
  c ← choose_pick st frand;
  d ← choose_repair pp b to_play st;
  mret (c, with_prob b to_play d).

(** ** playout_elo_assess (elo.c:289-308) *)

(** [struct prior_map] of uct/prior.h, as far as elo.c reads it. *)
Record prior_map : Type := {
  map_b : board;
  map_to_play : stone;
  consider : coord_t -> bool
}.

(** The value of the call is the list of the calls
    [add_prior_value(map, c, value, games)] it makes, in order;
    [add_prior_value] is not among the sources.  The distribution is a
    local of the call ([probdist_alloca]); [b->prob] is not mentioned. *)
Definition playout_elo_assess (pp : elo_policy) (map : prior_map) (games : Z)
    : list (coord_t * D * Z) :=
  let d := (elo_get_probdist (assess pp) (map_b map) (map_to_play map)
              (probdist_alloca (board_size (map_b map)))).2 in
  omap (fun c => if consider map c
                 then Some (c, probdist_one d c / probdist_total d, games)
                 else None)
       (f (map_b map)).

(** ** What the statements speak of *)

(** The sum of a list of weights, accumulated from 0 as the C loops do. *)
Definition d_sum (ws : list D) : D := fold_left d_add ws 0.

(** The invariant of a distribution: the total is the sum of the items
    of the board, each row total the sum of the items of its row. *)
Definition pd_invariant (d : probdist) : Prop :=
  total d = d_sum (map (items d) (seqZ 0 (pd_size d * pd_size d)))
  /\ forall y, (0 <= y < pd_size d)%Z ->
       rowtotals d y = d_sum (map (items d) (seqZ (y * pd_size d) (pd_size d))).

(** Writing the backups back, last to first. *)
Definition write_back (backups : list (Z * D)) (rows : Z -> D) : Z -> D :=
  fold_left (fun r iv => <[iv.1 := iv.2]> r) (reverse backups) rows.

(** What one call keeps of the distribution it was given: the backups
    written back over the current row totals give the row totals of the
    start, the items are those of the start, the total backed up is kept. *)
Definition backed_up (d0 : probdist) (bt : D) (st : choose_state) : Prop :=
  pd_size (pd st) = pd_size d0
  /\ btotal (lpd st) = bt
  /\ (forall c, items (pd st) c = items d0 c)
  /\ (forall y, write_back (browtotals (lpd st)) (rowtotals (pd st)) y = rowtotals d0 y).

(** The locations a call excludes, in the order it meets them. *)
Definition exclusions (b : board) : list coord_t :=
  (if is_pass (coord (ko b)) then [] else [coord (ko b)])
  ++ (if is_pass (coord (last_move b)) then [] else neighbors8 b (coord (last_move b))).

(** Every entry of the local pool is the item of its location, as the
    distribution holds it, times the contiguity gamma. *)
Definition pool_of_items (b : board) (st : choose_state) : Prop :=
  forall c w, (c, w) ∈ lpd_entries (lpd st) ->
              w = probdist_one (pd st) c * contiguity_gamma b.

(** The scan of the local pool runs out of entries. *)
Fixpoint lpd_exhausted (stab : D) (entries : list (coord_t * D)) : bool :=
  match entries with
  | [] => true
  | (_, item) :: rest => negb (stab <=? item) && lpd_exhausted (stab - item) rest
  end.

(** The sampler returns no location of the array it is told to skip. *)
Definition sampler_skips_ignored : Prop :=
  forall d l, probdist_pick d (l ++ [pass]) ∉ l.

(** The distribution [playout_elo_assess] fills. *)
Definition assess_probdist (pp : elo_policy) (map : prior_map) : probdist :=
  (elo_get_probdist (assess pp) (map_b map) (map_to_play map)
     (probdist_alloca (board_size (map_b map)))).2.

(** [map] over the board [b']. *)
Definition on_board (map : prior_map) (b' : board) : prior_map :=
  {| map_b := b'; map_to_play := map_to_play map; consider := consider map |}.

(** ** playout_elo_choose (elo.c:272-285, the variant without BOARD_GAMMA)

    The distribution is a local of the call, filled by
    [elo_get_probdist] with the choose configuration; the array of the
    locations to skip holds the terminator alone. *)
Definition playout_elo_choose_plain (pp : elo_policy) (b : board) (to_play : stone)
    : coord_t :=
  let d := (elo_get_probdist (choose pp) b to_play
              (probdist_alloca (board_size b))).2 in
  let d := match callback pp with
           | Some cb => cb b to_play d
           | None => d
           end in
  if total d <? PROBDIST_EPSILON then pass
  else probdist_pick d [pass].

(** ** playout_elo_callback (elo.c:319-325)

    A null function pointer is [None]. *)
Definition playout_elo_callback (pp : elo_policy)
    (cb : option (board -> stone -> probdist -> probdist)) : elo_policy :=
  {| selfatari := selfatari pp; choose := choose pp; assess := assess pp;
     callback := cb |}.

(** The coordinate a call returns, or the reason it stopped for. *)
Definition returned_coord (r : outcome (coord_t * board)) : outcome coord_t :=
  match r with
  | Returns cb => Returns cb.1
  | Aborts why => Aborts why
  end.

(** The sampler reads the contents of the distribution and nothing else. *)
Definition sampler_extensional : Prop :=
  forall d d' ign, pd_same d d' -> probdist_pick d ign = probdist_pick d' ign.

(** Two states of a call that hold the same values. *)
Definition state_same (s1 s2 : choose_state) : Prop :=
  ignores s1 = ignores s2 /\ lpd s1 = lpd s2 /\ pd_same (pd s1) (pd s2).

(** Two boards [playout_elo_choose] cannot tell apart for [to_play]. *)
Definition board_agree (b1 b2 : board) (to_play : stone) : Prop :=
  ko b1 = ko b2 /\ last_move b1 = last_move b2
  /\ neighbors8 b1 = neighbors8 b2 /\ gamma b1 = gamma b2
  /\ pd_same (prob b1 to_play) (prob b2 to_play).

(** *** Properties of [elo_get_probdist] *)

Lemma pattern_gamma_product pset b m :
  pattern_gamma pset b m
  = d_product (map (table_weight (fg pset)) (pattern_match (pc pset) (ps pset) b m)).
Proof.
  unfold pattern_gamma, d_product.
  generalize (pattern_match (pc pset) (ps pset) b m), d_one.
  intros l; induction l as [|ft l IH]; intros g; simpl; [reflexivity|].
  rewrite IH. unfold feature_gamma, table_weight.
  destruct (fg pset !! ft); reflexivity.
Qed.

(** A round of the loop writes the weight the specification gives, and
    counts the candidate when it is not skipped. *)
Lemma elo_get_probdist_step_spec pset b to_play st c :
  elo_get_probdist_step pset b to_play st c
  = ((st.1 + (if skipped b to_play c then 0 else 1))%Z,
     probdist_set st.2 c (team_gamma pset b to_play c)).
Proof.
  unfold elo_get_probdist_step, team_gamma, skipped; simpl.
  destruct (is_pass c); simpl; [by rewrite Z.add_0_r|].
  destruct (board_is_valid_move b _); simpl; [|by rewrite Z.add_0_r].
  destruct (board_is_one_point_eye b c to_play); simpl; [by rewrite Z.add_0_r|].
  by rewrite pattern_gamma_product.
Qed.

Lemma elo_loop_items pset b to_play l st c :
  probdist_one (fold_left (elo_get_probdist_step pset b to_play) l st).2 c
  = if decide (c ∈ l) then team_gamma pset b to_play c else probdist_one st.2 c.
Proof.
  revert st; induction l as [|x l IH]; intros st; simpl.
  - destruct (decide (c ∈ [])) as [Hin|]; [by apply elem_of_nil in Hin|done].
  - rewrite IH, elo_get_probdist_step_spec; simpl.
    destruct (decide (c ∈ l)) as [Hl|Hl].
    + rewrite decide_True; [done|by apply elem_of_cons; right].
    + unfold probdist_one, probdist_set; simpl.
      destruct (decide (x = c)) as [->|Hne].
      * rewrite fn_lookup_insert, decide_True; [done|by apply elem_of_cons; left].
      * rewrite fn_lookup_insert_ne by done.
        rewrite decide_False; [done|].
        intros [?|?]%elem_of_cons; congruence.
Qed.

Lemma elo_loop_moves pset b to_play l st :
  (fold_left (elo_get_probdist_step pset b to_play) l st).1
  = (st.1 + Z.of_nat (length (List.filter (fun c => negb (skipped b to_play c)) l)))%Z.
Proof.
  revert st; induction l as [|x l IH]; intros st; simpl; [lia|].
  rewrite IH, elo_get_probdist_step_spec; simpl.
  destruct (skipped b to_play x); simpl; lia.
Qed.

(** C1. Whatever the board, the side to move and the feature
    configuration, after [elo_get_probdist] every candidate of [b->f]
    that is a pass, an illegal move or an own one-point eye has weight 0,
    every other candidate has the product, started at 1, of the gamma
    table's weights of the features matched there (a feature the table
    does not know counts as 1), and the value returned is the number of
    candidates that were not skipped. *)
Theorem elo_get_probdist_weights pset b to_play pd :
  (forall c, c ∈ f b ->
     probdist_one (elo_get_probdist pset b to_play pd).2 c
     = if is_pass c
          || negb (board_is_valid_move b {| coord := c; color := to_play |})
          || board_is_one_point_eye b c to_play
       then d_zero
       else d_product (map (fun ft => match fg pset !! ft with
                                    | Some g => g
                                    | None => d_one
                                    end)
                       (pattern_match (pc pset) (ps pset) b
                          {| coord := c; color := to_play |})))
  /\ (elo_get_probdist pset b to_play pd).1
     = Z.of_nat (length (List.filter
         (fun c => negb (is_pass c
                         || negb (board_is_valid_move b {| coord := c; color := to_play |})
                         || board_is_one_point_eye b c to_play))
         (f b))).
Proof.
  unfold elo_get_probdist; split.
  - intros c Hc. rewrite elo_loop_items, decide_True by done. reflexivity.
  - rewrite elo_loop_moves. reflexivity.
Qed.

(** *** Properties of [playout_elo_choose] *)

Lemma pd_same_refl d : pd_same d d.
Proof. by repeat split. Qed.

Lemma pd_invariant_same d1 d2 : pd_same d1 d2 -> pd_invariant d2 -> pd_invariant d1.
Proof.
  intros (Hs & Ht & Hr & Hi) [It Ir]; split.
  - rewrite Ht, It, Hs. f_equal. apply map_ext; auto.
  - intros y Hy. rewrite Hs in Hy. rewrite Hr, (Ir y Hy), Hs.
    f_equal. apply map_ext; auto.
Qed.

Lemma write_back_ext backups rows1 rows2 :
  (forall y, rows1 y = rows2 y) ->
  forall y, write_back backups rows1 y = write_back backups rows2 y.
Proof.
  unfold write_back. generalize (reverse backups) as l.
  intros l; revert rows1 rows2; induction l as [|[i v] l IH]; intros r1 r2 E y; simpl; [auto|].
  apply IH. intros z. destruct (decide (i = z)) as [->|Hne].
  - by rewrite !fn_lookup_insert.
  - by rewrite !fn_lookup_insert_ne.
Qed.

Lemma write_back_snoc backups i v rows y :
  write_back (backups ++ [(i, v)]) rows y = write_back backups (<[i := v]> rows) y.
Proof. unfold write_back. by rewrite reverse_snoc. Qed.

Lemma ignore_move_backed_up d0 bt st c :
  backed_up d0 bt st -> backed_up d0 bt (ignore_move st c).
Proof.
  intros (Hs & Hb & Hi & Hr); repeat split; simpl; auto.
  intros y. rewrite write_back_snoc, <- Hr.
  apply write_back_ext. intros z.
  destruct (decide (coord_y c (pd_size (pd st)) = z)) as [->|Hne].
  - by rewrite fn_lookup_insert.
  - by rewrite !fn_lookup_insert_ne.
Qed.

Lemma contiguity_step_backed_up b d0 bt st c :
  backed_up d0 bt st -> backed_up d0 bt (contiguity_step b st c).
Proof.
  intros Hst. apply (ignore_move_backed_up _ _ _ c) in Hst.
  destruct Hst as (Hs & Hb & Hi & Hr). repeat split; simpl; auto.
Qed.

Lemma choose_contiguity_backed_up b d0 bt st :
  backed_up d0 bt st -> backed_up d0 bt (choose_contiguity b st).
Proof.
  unfold choose_contiguity. destruct (negb _); [|done].
  generalize (neighbors8 b (coord (last_move b))) as l.
  intros l; revert st; induction l as [|c l IH]; intros st Hst; simpl; [done|].
  by apply IH, contiguity_step_backed_up.
Qed.

Lemma choose_prepare_backed_up pp b to_play st :
  choose_prepare pp b to_play = Returns st ->
  backed_up (pd (choose_entry pp b to_play)) (total (prob b to_play)) st.
Proof.
  unfold choose_prepare, choose_ko; unfold_outcome.
  assert (backed_up (pd (choose_entry pp b to_play)) (total (prob b to_play))
            (choose_entry pp b to_play)) as H0 by (by repeat split).
  destruct (negb _); simpl.
  - destruct (decide _); simpl; [|done].
    intros [= <-]. by apply choose_contiguity_backed_up, ignore_move_backed_up.
  - intros [= <-]. by apply choose_contiguity_backed_up.
Qed.

Lemma choose_restore_same d0 st :
  backed_up d0 (total d0) st -> pd_same (choose_restore (lpd st) (pd st)) d0.
Proof. intros (Hs & Hb & Hi & Hr). repeat split; simpl; auto. Qed.

(** The parts of a call that returned. *)
Lemma playout_elo_choose_returns pp b to_play frand c b' :
  playout_elo_choose pp b to_play frand = Returns (c, b') ->
  exists st d,
    choose_prepare pp b to_play = Returns st
    /\ choose_pick st frand = Returns c
    /\ choose_repair pp b to_play st = Returns d
    /\ b' = with_prob b to_play d.
Proof.
  unfold playout_elo_choose; unfold_outcome.
  destruct (choose_prepare pp b to_play) as [st|] eqn:Hprep; [|done].
  destruct (choose_pick st frand) as [c'|] eqn:Hpick; [|done].
  destruct (choose_repair pp b to_play st) as [d|] eqn:Hrep; [|done].
  intros [= <- <-]. by exists st, d.
Qed.

Lemma playout_elo_choose_no_callback pp b to_play frand c b' :
  callback pp = None ->
  playout_elo_choose pp b to_play frand = Returns (c, b') ->
  pd_same (prob b' to_play) (prob b to_play)
  /\ forall other, other <> to_play -> prob b' other = prob b other.
Proof.
  intros Hcb (st & d & Hprep & _ & Hrep & ->)%playout_elo_choose_returns.
  apply choose_prepare_backed_up in Hprep.
  unfold choose_repair in Hrep. unfold choose_entry in Hprep.
  rewrite Hcb in Hrep, Hprep. simpl in Hprep. injection Hrep as <-.
  split; simpl.
  - rewrite fn_lookup_insert. by apply choose_restore_same.
  - intros other Hne. by rewrite fn_lookup_insert_ne.
Qed.

(** C2. With no callback registered, when [playout_elo_choose] returns
    the total and every row total of the distribution are the values
    they had before the first mute of the call, bit for bit, however
    many locations were muted and however often one row was muted. *)
Theorem playout_elo_choose_restores_totals pp b to_play frand c b' :
  callback pp = None ->
  playout_elo_choose pp b to_play frand = Returns (c, b') ->
  total (prob b' to_play) = total (pd (choose_entry pp b to_play))
  /\ forall y, rowtotals (prob b' to_play) y
               = rowtotals (pd (choose_entry pp b to_play)) y.
Proof.
  intros Hcb Hret.
  destruct (playout_elo_choose_no_callback _ _ _ _ _ _ Hcb Hret)
    as [(_ & Ht & Hr & _) _].
  unfold choose_entry. rewrite Hcb. simpl. auto.
Qed.

(** C4. With no callback registered, [playout_elo_choose] returns with
    the distributions of the board as it found them: total, row totals
    and every item of the distribution of the side to move are the
    values of before the call, the other side's distribution is not
    touched, and so the invariant of the distribution holds at return
    when it held at the call. *)
Theorem playout_elo_choose_frame pp b to_play frand c b' :
  callback pp = None ->
  playout_elo_choose pp b to_play frand = Returns (c, b') ->
  (forall side, pd_same (prob b' side) (prob b side))
  /\ (forall x, items (prob b' to_play) x = items (prob b to_play) x)
  /\ (pd_invariant (prob b to_play) -> pd_invariant (prob b' to_play)).
Proof.
  intros Hcb Hret.
  destruct (playout_elo_choose_no_callback _ _ _ _ _ _ Hcb Hret) as [Hsame Hother].
  split; [|split].
  - intros side. destruct (decide (side = to_play)) as [->|Hne]; [done|].
    rewrite Hother by done. apply pd_same_refl.
  - apply Hsame.
  - by apply pd_invariant_same.
Qed.

(** **** The local pool *)

Lemma contiguity_loop_snoc b l c st :
  fold_left (contiguity_step b) (l ++ [c]) st
  = contiguity_step b (fold_left (contiguity_step b) l st) c.
Proof. by rewrite fold_left_app. Qed.

(** The entries the loop appends, and the total it accumulates. *)
Lemma contiguity_loop_entries b l st :
  let st' := fold_left (contiguity_step b) l st in
  exists new,
    lpd_entries (lpd st') = lpd_entries (lpd st) ++ new
    /\ length new = length l
    /\ (forall k c, l !! k = Some c ->
          new !! k = Some (c, probdist_one
                               (pd (fold_left (contiguity_step b) (take k l) st)) c
                             * contiguity_gamma b))
    /\ lpd_total (lpd st') = fold_left d_add (map snd new) (lpd_total (lpd st)).
Proof.
  induction l as [|c l IH] using rev_ind; simpl.
  - exists []. rewrite app_nil_r. repeat split; auto. intros k c Hk. done.
  - destruct IH as (new & He & Hlen & Hk & Ht).
    rewrite contiguity_loop_snoc.
    set (s := fold_left (contiguity_step b) l st) in *.
    exists (new ++ [(c, probdist_one (pd s) c * contiguity_gamma b)]).
    repeat split.
    + simpl. by rewrite He, <- app_assoc.
    + rewrite !length_app. simpl. lia.
    + intros k x Hx.
      destruct (decide (k < length l)%nat) as [Hlt|Hge].
      * rewrite lookup_app_l in Hx by done.
        rewrite lookup_app_l by lia.
        rewrite take_app_le by lia. by apply Hk.
      * assert (k = length l) as ->.
        { apply lookup_lt_Some in Hx. rewrite length_app in Hx. simpl in Hx. lia. }
        rewrite list_lookup_middle in Hx by done. injection Hx as <-.
        rewrite list_lookup_middle by done.
        rewrite take_app_length. done.
    + simpl. rewrite map_app, fold_left_app. simpl. by rewrite Ht.
Qed.

Lemma contiguity_loop_items b l st c :
  items (pd (fold_left (contiguity_step b) l st)) c = items (pd st) c.
Proof.
  revert st; induction l as [|x l IH]; intros st; simpl; [done|].
  by rewrite IH.
Qed.

(** C3. When the previous move is not a pass, the local pool holds one
    entry per 8-neighbour of it, in the order of the enumeration; the
    weight of each is the per-location weight the distribution held when
    that neighbour was about to be muted, which is the weight it held
    when the loop began, times the gamma the table of the board has for
    the contiguity feature with payload 1 (1 when the table has none);
    and the running total of the pool is the sum of these weights,
    added up from 0 in the order of the entries. *)
Theorem local_pool_weights pp b to_play st1 :
  choose_ko b to_play (choose_entry pp b to_play) = Returns st1 ->
  is_pass (coord (last_move b)) = false ->
  let nbrs := neighbors8 b (coord (last_move b)) in
  let pool := lpd (choose_contiguity b st1) in
  let bonus := match gamma b !! (FEAT_CONTIGUITY, 1%Z) with
               | Some g => g
               | None => d_one
               end in
  length (lpd_entries pool) = length nbrs
  /\ (forall k c, nbrs !! k = Some c ->
        lpd_entries pool !! k
        = Some (c, items (pd (fold_left (contiguity_step b) (take k nbrs) st1)) c
                   * bonus)
        /\ items (pd (fold_left (contiguity_step b) (take k nbrs) st1)) c
           = items (pd (choose_entry pp b to_play)) c)
  /\ lpd_total pool = fold_left d_add (map snd (lpd_entries pool)) d_zero.
Proof.
  intros Hko Hlast nbrs pool bonus.
  assert (lpd_entries (lpd st1) = [] /\ lpd_total (lpd st1) = d_zero
          /\ forall c, items (pd st1) c = items (pd (choose_entry pp b to_play)) c)
    as (He0 & Ht0 & Hi0).
  { unfold choose_ko in Hko.
    destruct (negb _); [destruct (decide _); [|discriminate]|];
      injection Hko as <-; repeat split; reflexivity. }
  assert (contiguity_gamma b = bonus) as Hbonus.
  { unfold contiguity_gamma, feature_gamma, bonus.
    unfold feature. by destruct (gamma b !! (FEAT_CONTIGUITY, 1%Z)). }
  subst pool. unfold choose_contiguity. rewrite Hlast. simpl. fold nbrs.
  destruct (contiguity_loop_entries b nbrs st1) as (new & He & Hlen & Hk & Ht).
  rewrite He0 in He. simpl in He. rewrite Ht0 in Ht.
  rewrite He. split; [done|]. split; [|done].
  intros k c Hc. split.
  - rewrite (Hk k c Hc), Hbonus. done.
  - by rewrite contiguity_loop_items.
Qed.

(** **** The exclusion array *)

Lemma ignores_add_snoc l p c :
  ignores_add (l ++ [p]) c
  = if bool_decide (c < p)%Z then l ++ [c; p] else l ++ [p; c].
Proof.
  unfold ignores_add. rewrite last_snoc, removelast_last.
  case_bool_decide; [done|]. by rewrite <- app_assoc.
Qed.

Lemma ignores_add_perm l c : ignores_add l c ≡ₚ l ++ [c].
Proof.
  destruct l as [|p l _] using rev_ind; [done|].
  rewrite ignores_add_snoc. case_bool_decide; rewrite <- !app_assoc; simpl; [|done].
  apply Permutation_app_head, perm_swap.
Qed.

Lemma elem_of_two (x a b : Z) : x ∈ [a; b] -> x = a \/ x = b.
Proof.
  intros Hx. apply elem_of_cons in Hx as [Hx|Hx]; [by left|].
  apply list_elem_of_singleton in Hx. by right.
Qed.

(** One insertion keeps the array sorted when nothing but its last
    element exceeds the element inserted. *)
Lemma ignores_add_sorted l c :
  StronglySorted Z.le l ->
  (forall x, x ∈ removelast l -> (x <= c)%Z) ->
  StronglySorted Z.le (ignores_add l c)
  /\ (forall x, x ∈ removelast (ignores_add l c) -> (x <= c)%Z).
Proof.
  destruct l as [|p l _] using rev_ind; intros Hs Hle.
  - split; [|by intros x Hx; apply elem_of_nil in Hx].
    repeat constructor.
  - rewrite removelast_last in Hle.
    apply StronglySorted_app in Hs as (Hlp & Hl & _).
    rewrite ignores_add_snoc. case_bool_decide as Hcp.
    + split.
      * apply StronglySorted_app_2; [|done|].
        -- intros x1 x2 H1 H2.
           apply elem_of_two in H2 as [->| ->]; [by apply Hle|].
           apply Hlp; [done|]. by apply list_elem_of_singleton.
        -- repeat constructor. lia.
      * change (l ++ [c; p]) with (l ++ [c] ++ [p]).
        rewrite app_assoc, removelast_last.
        intros x [Hx|Hx]%elem_of_app; [by apply Hle|].
        apply list_elem_of_singleton in Hx as ->. lia.
    + split.
      * apply StronglySorted_app_2; [|done|].
        -- intros x1 x2 H1 H2.
           apply elem_of_two in H2 as [->| ->]; [|by apply Hle].
           apply Hlp; [done|]. by apply list_elem_of_singleton.
        -- repeat constructor. lia.
      * change (l ++ [p; c]) with (l ++ [p] ++ [c]).
        rewrite app_assoc, removelast_last.
        intros x [Hx|Hx]%elem_of_app; [by apply Hle|].
        apply list_elem_of_singleton in Hx as ->. lia.
Qed.

Lemma ignores_loop_sorted nbrs l :
  StronglySorted Z.le nbrs ->
  StronglySorted Z.le l ->
  (forall x y, x ∈ removelast l -> y ∈ nbrs -> (x <= y)%Z) ->
  StronglySorted Z.le (fold_left ignores_add nbrs l).
Proof.
  revert l; induction nbrs as [|c nbrs IH]; intros l Hn Hl Hle; simpl; [done|].
  apply StronglySorted_cons in Hn as [Hc Hn]. rewrite Forall_forall in Hc.
  destruct (ignores_add_sorted l c Hl) as [Hs' Hle'].
  { intros x Hx. apply Hle; [done|]. by apply elem_of_cons; left. }
  apply IH; [done..|].
  intros x y Hx Hy. specialize (Hle' x Hx). specialize (Hc y Hy). lia.
Qed.

Lemma contiguity_loop_ignores b l st :
  ignores (fold_left (contiguity_step b) l st) = fold_left ignores_add l (ignores st).
Proof. revert st; induction l as [|c l IH]; intros st; simpl; [done|]. by rewrite IH. Qed.

Lemma choose_prepare_ignores pp b to_play st :
  choose_prepare pp b to_play = Returns st ->
  ignores st
  = fold_left ignores_add
      (if is_pass (coord (last_move b)) then [] else neighbors8 b (coord (last_move b)))
      (if is_pass (coord (ko b)) then [] else [coord (ko b)]).
Proof.
  unfold choose_prepare, choose_ko, choose_contiguity; unfold_outcome.
  destruct (is_pass (coord (ko b))); simpl.
  - intros [= <-]. destruct (is_pass (coord (last_move b))); simpl; [done|].
    by rewrite contiguity_loop_ignores.
  - destruct (decide _); [|done]. intros [= <-].
    destruct (is_pass (coord (last_move b))); simpl; [done|].
    by rewrite contiguity_loop_ignores.
Qed.

(** C10 (as the code has it). When the enumeration of the 8 neighbours
    of the last move is ascending, the array handed to the sampler is
    the exclusions of the call in ascending order, followed by the pass
    sentinel, wherever the ko point falls among the neighbours. *)
Theorem ignores_sorted_at_pick pp b to_play st :
  choose_prepare pp b to_play = Returns st ->
  Sorted Z.le (neighbors8 b (coord (last_move b))) ->
  exists l, ignores_array st = l ++ [pass]
            /\ Sorted Z.le l
            /\ l ≡ₚ exclusions b.
Proof.
  intros Hprep Hn. exists (ignores st). split; [done|].
  rewrite (choose_prepare_ignores _ _ _ _ Hprep). unfold exclusions. split.
  - apply StronglySorted_Sorted, ignores_loop_sorted.
    + destruct (is_pass (coord (last_move b))); [constructor|].
      by apply Sorted_StronglySorted; [apply _|].
    + destruct (is_pass (coord (ko b))); repeat constructor.
    + intros x y Hx _.
      destruct (is_pass (coord (ko b))); simpl in Hx; by apply elem_of_nil in Hx.
  - generalize (if is_pass (coord (ko b)) then [] else [coord (ko b)]) as l0.
    generalize (if is_pass (coord (last_move b)) then []
                else neighbors8 b (coord (last_move b))) as nbrs.
    intros nbrs; induction nbrs as [|c nbrs IH]; intros l0; simpl.
    + by rewrite app_nil_r.
    + rewrite IH, ignores_add_perm, <- app_assoc. done.
Qed.

Lemma contiguity_step_pool b st c :
  pool_of_items b st -> pool_of_items b (contiguity_step b st c).
Proof.
  intros Hst x w Hx. simpl in Hx.
  apply elem_of_app in Hx as [Hx|Hx].
  - by apply Hst.
  - apply list_elem_of_singleton in Hx. by injection Hx as -> ->.
Qed.

Lemma choose_prepare_pool pp b to_play st :
  choose_prepare pp b to_play = Returns st -> pool_of_items b st.
Proof.
  unfold choose_prepare; unfold_outcome.
  destruct (choose_ko _ _ _) as [st1|] eqn:Hko; [|done]. intros [= <-].
  assert (pool_of_items b st1) as H1.
  { unfold choose_ko in Hko.
    destruct (negb _); [destruct (decide _); [|discriminate]|];
      injection Hko as <-; by intros c w Hc%elem_of_nil. }
  unfold choose_contiguity. destruct (negb _); [|done].
  revert H1. generalize (neighbors8 b (coord (last_move b))) as l. clear Hko.
  intros l; revert st1; induction l as [|c l IH]; intros st1 H1; simpl; [done|].
  by apply IH, contiguity_step_pool.
Qed.

(** **** Termination of the process *)

Lemma choose_prepare_aborts pp b to_play why :
  choose_prepare pp b to_play = Aborts why <->
  why = ko_color_assertion
  /\ is_pass (coord (ko b)) = false /\ color (ko b) <> to_play.
Proof.
  unfold choose_prepare, choose_ko; unfold_outcome.
  destruct (is_pass (coord (ko b))); simpl.
  - split; [done|]. by intros (_ & ? & _).
  - destruct (decide _) as [E|E]; split; try done.
    + by intros (_ & _ & ?).
    + by intros [= <-].
    + by intros (-> & _).
Qed.

Lemma lpd_scan_exhausted stab entries :
  Forall (fun e => is_pass e.1 = false) entries ->
  is_pass (lpd_scan stab entries) = lpd_exhausted stab entries.
Proof.
  revert stab; induction entries as [|[c item] rest IH]; intros stab Hn; simpl; [done|].
  apply Forall_cons in Hn as [Hc Hn]. simpl in Hc.
  destruct (stab <=? item); simpl; [done|]. by apply IH.
Qed.

(** C6 (as the code has it). [playout_elo_choose] terminates the process
    in three situations and no other: a ko point is set whose colour is
    not the side to move; the draw falls in the range of the local pool
    and the scan of the pool ends with no coordinate picked; a callback
    is registered and the total of the rebuilt distribution is not
    within epsilon of the total backed up at entry.  In every other case
    the call returns a coordinate or [pass]. *)
Theorem playout_elo_choose_aborts pp b to_play frand :
  (forall why,
     playout_elo_choose pp b to_play frand = Aborts why <->
     (why = ko_color_assertion
      /\ is_pass (coord (ko b)) = false /\ color (ko b) <> to_play)
     \/ (exists st,
           choose_prepare pp b to_play = Returns st
           /\ ((why = local_overstab
                /\ (choose_stab st frand <? lpd_total (lpd st) - PROBDIST_EPSILON) = true
                /\ is_pass (lpd_scan (choose_stab st frand) (lpd_entries (lpd st))) = true)
               \/ (why = rebuilt_total_assertion
                   /\ (exists c, choose_pick st frand = Returns c)
                   /\ is_Some (callback pp)
                   /\ (d_abs (total (choose_rebuild b to_play (pd st))
                               - total (prob b to_play)) <? PROBDIST_EPSILON) = false))))
  /\ ((exists why, playout_elo_choose pp b to_play frand = Aborts why)
      \/ (exists c b', playout_elo_choose pp b to_play frand = Returns (c, b'))).
Proof.
  split.
  - intros why. unfold playout_elo_choose; unfold_outcome.
    destruct (choose_prepare pp b to_play) as [st|why'] eqn:Hprep.
    + pose proof (choose_prepare_backed_up _ _ _ _ Hprep) as (_ & Hbt & _).
      assert (forall w, ~ (w = ko_color_assertion
                /\ is_pass (coord (ko b)) = false /\ color (ko b) <> to_play)) as Hnko.
      { intros w Hw. apply (choose_prepare_aborts pp) in Hw. congruence. }
      unfold choose_pick at 1, choose_repair.
      destruct (choose_stab st frand <? lpd_total (lpd st) - PROBDIST_EPSILON) eqn:Hrange.
      * destruct (is_pass (lpd_scan _ _)) eqn:Hscan.
        -- split.
           ++ intros [= <-]. right. exists st. split; [done|]. by left.
           ++ intros [Hko|(st' & [= <-] & [(-> & _)|(_ & (c & Hc) & _)])];
                [by apply Hnko in Hko|done|].
              unfold choose_pick in Hc. rewrite Hrange, Hscan in Hc. done.
        -- destruct (callback pp) as [cb|] eqn:Hcb.
           ++ rewrite Hbt.
              destruct (d_abs _ <? _) eqn:Hfabs; split; try done.
              ** intros [Hko|(st' & [= <-] & [(_ & _ & Hs)|(_ & _ & _ & Hf)])];
                   [by apply Hnko in Hko|congruence..].
              ** intros [= <-]. right. exists st. split; [done|]. right.
                 repeat split; [|by eexists|done].
                 eexists. unfold choose_pick. by rewrite Hrange, Hscan.
              ** intros [Hko|(st' & [= <-] & [(_ & _ & Hs)|(-> & _)])];
                   [by apply Hnko in Hko|congruence|done].
           ++ split; [done|].
              intros [Hko|(st' & [= <-] & [(_ & _ & Hs)|(_ & _ & [? Hsome] & _)])];
                [by apply Hnko in Hko|congruence|done].
      * assert (exists c, choose_pick st frand = Returns c) as [c Hc].
        { unfold choose_pick. rewrite Hrange. destruct (_ <=? _); by eexists. }
        replace (if PROBDIST_EPSILON <=? total (pd st)
                 then Returns (probdist_pick (pd st) (ignores_array st))
                 else Returns pass) with (Returns (A:=coord_t) c).
        2:{ unfold choose_pick in Hc. by rewrite Hrange in Hc. }
        destruct (callback pp) as [cb|] eqn:Hcb.
        -- rewrite Hbt.
           destruct (d_abs _ <? _) eqn:Hfabs; split; try done.
           ++ intros [Hko|(st' & [= <-] & [(_ & Hr & _)|(_ & _ & _ & Hf)])];
                [by apply Hnko in Hko|congruence..].
           ++ intros [= <-]. right. exists st. split; [done|]. right.
              repeat split; [by eexists|by eexists|done].
           ++ intros [Hko|(st' & [= <-] & [(_ & Hr & _)|(-> & _)])];
                [by apply Hnko in Hko|congruence|done].
        -- split; [done|].
           intros [Hko|(st' & [= <-] & [(_ & Hr & _)|(_ & _ & [? Hsome] & _)])];
             [by apply Hnko in Hko|congruence|done].
    + split.
      * intros [= <-]. left. by apply (choose_prepare_aborts pp).
      * intros [Hko|(st' & Hst & _)]; [|done].
        apply (choose_prepare_aborts pp) in Hko. congruence.
  - destruct (playout_elo_choose pp b to_play frand) as [[c b']|why] eqn:E.
    + right. by exists c, b'.
    + left. by exists why.
Qed.

(** **** The ko point *)

Lemma contiguity_loop_coords b l st :
  map fst (lpd_entries (lpd (fold_left (contiguity_step b) l st)))
  = map fst (lpd_entries (lpd st)) ++ l.
Proof.
  revert st; induction l as [|c l IH]; intros st; simpl.
  - by rewrite app_nil_r.
  - rewrite IH. simpl. by rewrite map_app, <- app_assoc.
Qed.

Lemma lpd_scan_coord stab entries :
  is_pass (lpd_scan stab entries) = false ->
  lpd_scan stab entries ∈ map fst entries.
Proof.
  revert stab; induction entries as [|[c item] rest IH]; intros stab; simpl; [done|].
  destruct (stab <=? item).
  - intros _. by apply elem_of_cons; left.
  - intros Hc. apply elem_of_cons; right. by apply IH.
Qed.

(** The ko point is not picked when it is no neighbour of the last move:
    the global sampler is told to skip it, and the local pool holds
    neighbours only. *)
Lemma ko_not_picked_unless_neighbor pp b to_play st frand c :
  sampler_skips_ignored ->
  choose_prepare pp b to_play = Returns st ->
  is_pass (coord (ko b)) = false ->
  is_pass (coord (last_move b)) = true
  \/ coord (ko b) ∉ neighbors8 b (coord (last_move b)) ->
  choose_pick st frand = Returns c ->
  c <> coord (ko b).
Proof.
  intros Hsampler Hprep Hko Hnb Hpick ->.
  pose proof (choose_prepare_ignores _ _ _ _ Hprep) as Hign.
  rewrite Hko in Hign.
  assert (map fst (lpd_entries (lpd st))
          = if is_pass (coord (last_move b)) then []
            else neighbors8 b (coord (last_move b))) as Hcoords.
  { revert Hprep. unfold choose_prepare, choose_ko, choose_contiguity; unfold_outcome. rewrite Hko. simpl.
    destruct (decide _); [|done]. intros [= <-].
    destruct (is_pass (coord (last_move b))); simpl; [done|].
    by rewrite contiguity_loop_coords. }
  unfold choose_pick in Hpick.
  destruct (_ <? _).
  - destruct (is_pass (lpd_scan _ _)) eqn:Hscan; [done|]. injection Hpick as Hpick.
    apply lpd_scan_coord in Hscan. rewrite Hpick, Hcoords in Hscan.
    destruct Hnb as [Hlast|Hnb]; [|destruct (is_pass (coord (last_move b)))].
    + rewrite Hlast in Hscan. by apply elem_of_nil in Hscan.
    + by apply elem_of_nil in Hscan.
    + done.
  - destruct (_ <=? _); injection Hpick as Hpick.
    + apply (Hsampler (pd st) (ignores st)). fold (ignores_array st). rewrite Hpick, Hign.
      assert (forall l l0, coord (ko b) ∈ l0 -> coord (ko b) ∈ fold_left ignores_add l l0)
        as Hin.
      { intros l; induction l as [|x l IH]; intros l0 H0; simpl; [done|].
        apply IH. rewrite ignores_add_perm. apply elem_of_app; by left. }
      apply Hin. by apply list_elem_of_singleton.
    + rewrite <- Hpick in Hko. done.
Qed.

(** **** Running a call phase by phase *)

Lemma choose_ko_set b to_play st :
  is_pass (coord (ko b)) = false ->
  color (ko b) = to_play ->
  choose_ko b to_play st = Returns (ignore_move st (coord (ko b))).
Proof.
  intros Hko Hcol. unfold choose_ko. rewrite Hko. simpl.
  by rewrite decide_True.
Qed.

Lemma choose_ko_unset b to_play st :
  is_pass (coord (ko b)) = true -> choose_ko b to_play st = Returns st.
Proof. intros Hko. unfold choose_ko. by rewrite Hko. Qed.

Lemma choose_prepare_ko_set pp b to_play :
  is_pass (coord (ko b)) = false ->
  color (ko b) = to_play ->
  choose_prepare pp b to_play
  = Returns (choose_contiguity b
               (ignore_move (choose_entry pp b to_play) (coord (ko b)))).
Proof.
  intros Hko Hcol. unfold choose_prepare; unfold_outcome.
  by rewrite choose_ko_set.
Qed.

Lemma choose_prepare_ko_unset pp b to_play :
  is_pass (coord (ko b)) = true ->
  choose_prepare pp b to_play = Returns (choose_contiguity b (choose_entry pp b to_play)).
Proof.
  intros Hko. unfold choose_prepare; unfold_outcome.
  by rewrite choose_ko_unset.
Qed.

Lemma playout_elo_choose_steps pp b to_play frand st c d :
  choose_prepare pp b to_play = Returns st ->
  choose_pick st frand = Returns c ->
  choose_repair pp b to_play st = Returns d ->
  playout_elo_choose pp b to_play frand = Returns (c, with_prob b to_play d).
Proof.
  intros Hprep Hpick Hrep.
  unfold playout_elo_choose; unfold_outcome.
  by rewrite Hprep, Hpick, Hrep.
Qed.

(** *** Properties of [playout_elo_assess] *)

Lemma playout_elo_assess_values pp map games :
  playout_elo_assess pp map games
  = List.map (fun c => (c,
                   team_gamma (assess pp) (map_b map) (map_to_play map) c
                   / probdist_total (assess_probdist pp map),
                   games))
      (List.filter (consider map) (f (map_b map))).
Proof.
  unfold playout_elo_assess. fold (assess_probdist pp map).
  assert (forall c, c ∈ f (map_b map) ->
            probdist_one (assess_probdist pp map) c
            = team_gamma (assess pp) (map_b map) (map_to_play map) c) as Hw.
  { intros c Hc. unfold assess_probdist, elo_get_probdist.
    by rewrite elo_loop_items, decide_True. }
  revert Hw. generalize (f (map_b map)) as l.
  intros l; induction l as [|c l IH]; intros Hw; simpl; [done|].
  destruct (consider map c); simpl.
  - rewrite Hw by (by apply elem_of_cons; left). f_equal.
    apply IH. intros x Hx. apply Hw. by apply elem_of_cons; right.
  - apply IH. intros x Hx. apply Hw. by apply elem_of_cons; right.
Qed.

(** The call reads nothing of the distributions of the board, when the
    pattern matcher does not. *)
Lemma playout_elo_assess_isolated pp map games side d :
  (forall cfg spec b s d' m,
     pattern_match cfg spec (with_prob b s d') m = pattern_match cfg spec b m) ->
  playout_elo_assess pp (on_board map (with_prob (map_b map) side d)) games
  = playout_elo_assess pp map games.
Proof.
  intros Hpm. rewrite !playout_elo_assess_values. simpl.
  assert (forall c, team_gamma (assess pp) (with_prob (map_b map) side d)
                      (map_to_play map) c
                    = team_gamma (assess pp) (map_b map) (map_to_play map) c) as Hw.
  { intros c. unfold team_gamma, skipped. simpl. by rewrite Hpm. }
  assert (assess_probdist pp (on_board map (with_prob (map_b map) side d))
          = assess_probdist pp map) as ->.
  { unfold assess_probdist, elo_get_probdist. simpl.
    generalize (probdist_alloca (board_size (map_b map))) as d0.
    generalize (0%Z) as n.
    generalize (f (map_b map)) as l.
    intros l; induction l as [|c l IH]; intros n d0; simpl; [done|].
    rewrite !elo_get_probdist_step_spec. simpl. rewrite Hw.
    replace (skipped (with_prob (map_b map) side d) (map_to_play map) c)
      with (skipped (map_b map) (map_to_play map) c) by done.
    apply IH. }
  apply map_ext. intros c. by rewrite Hw.
Qed.

(** *** More of [elo_get_probdist] *)

Lemma elo_loop_size pset b to_play l st :
  pd_size (fold_left (elo_get_probdist_step pset b to_play) l st).2 = pd_size st.2.
Proof.
  revert st; induction l as [|x l IH]; intros st; simpl; [done|].
  by rewrite IH, elo_get_probdist_step_spec.
Qed.

(** X1. [elo_get_probdist] writes at the candidates of [b->f] and
    nowhere else: a location that is not in the list keeps the weight
    the distribution had for it, the board the distribution is for is
    the same, and the count returned lies between 0 and [b->flen]. *)
Theorem elo_get_probdist_frame pset b to_play d :
  (forall c, c ∉ f b ->
     probdist_one (elo_get_probdist pset b to_play d).2 c = probdist_one d c)
  /\ pd_size (elo_get_probdist pset b to_play d).2 = pd_size d
  /\ (0 <= (elo_get_probdist pset b to_play d).1 <= Z.of_nat (length (f b)))%Z.
Proof.
  unfold elo_get_probdist. split; [|split].
  - intros c Hc. rewrite elo_loop_items. by rewrite decide_False.
  - by rewrite elo_loop_size.
  - rewrite elo_loop_moves; simpl.
    pose proof (List.filter_length_le
                  (fun c => negb (skipped b to_play c)) (f b)).
    lia.
Qed.

(** *** The sizes of the arrays of [playout_elo_choose] *)

Lemma ignores_loop_perm l ign : fold_left ignores_add l ign ≡ₚ ign ++ l.
Proof.
  revert ign; induction l as [|c l IH]; intros ign; simpl.
  - by rewrite app_nil_r.
  - rewrite IH, ignores_add_perm. by rewrite <- app_assoc.
Qed.

Lemma choose_prepare_perm pp b to_play st :
  choose_prepare pp b to_play = Returns st -> ignores st ≡ₚ exclusions b.
Proof.
  intros Hst. rewrite (choose_prepare_ignores _ _ _ _ Hst).
  apply ignores_loop_perm.
Qed.

Lemma contiguity_loop_backups b l st :
  length (browtotals (lpd (fold_left (contiguity_step b) l st)))
  = (length (browtotals (lpd st)) + length l)%nat.
Proof.
  revert st; induction l as [|c l IH]; intros st; simpl; [lia|].
  rewrite IH; simpl. rewrite length_app; simpl. lia.
Qed.

Lemma choose_prepare_backups pp b to_play st :
  choose_prepare pp b to_play = Returns st ->
  length (browtotals (lpd st)) = length (exclusions b).
Proof.
  unfold choose_prepare, choose_ko, choose_contiguity, exclusions; unfold_outcome.
  destruct (is_pass (coord (ko b))); simpl.
  - intros [= <-]. destruct (is_pass (coord (last_move b))); simpl; [done|].
    by rewrite contiguity_loop_backups.
  - destruct (decide _); [|done]. intros [= <-].
    destruct (is_pass (coord (last_move b))); simpl; [done|].
    rewrite contiguity_loop_backups; simpl. lia.
Qed.

Lemma choose_prepare_entries pp b to_play st :
  choose_prepare pp b to_play = Returns st ->
  map fst (lpd_entries (lpd st))
  = if is_pass (coord (last_move b)) then []
    else neighbors8 b (coord (last_move b)).
Proof.
  unfold choose_prepare, choose_ko, choose_contiguity; unfold_outcome.
  destruct (is_pass (coord (ko b))); simpl.
  - intros [= <-]. destruct (is_pass (coord (last_move b))); simpl; [done|].
    by rewrite contiguity_loop_coords.
  - destruct (decide _); [|done]. intros [= <-].
    destruct (is_pass (coord (last_move b))); simpl; [done|].
    by rewrite contiguity_loop_coords.
Qed.

(** X4. The arrays of [playout_elo_choose] are large enough.  When the
    last move has at most 8 neighbours, as [foreach_8neighbor] yields
    them, the locations to skip are the ko point and the neighbours,
    each as often as it was met, so that with the terminator they fill
    at most the 10 cells of [ignores]; a row total is backed up for
    each, at most 9 of the 10 cells of [browtotals_i]; the local pool
    holds at most [LPD_MAX] = 8 entries. *)
Theorem choose_prepare_capacity pp b to_play st :
  choose_prepare pp b to_play = Returns st ->
  (length (neighbors8 b (coord (last_move b))) <= 8)%nat ->
  ignores st ≡ₚ exclusions b
  /\ (length (ignores_array st) <= 10)%nat
  /\ length (browtotals (lpd st)) = length (ignores st)
  /\ (length (browtotals (lpd st)) <= 9)%nat
  /\ (length (lpd_entries (lpd st)) <= 8)%nat.
Proof.
  intros Hst Hn.
  pose proof (choose_prepare_perm _ _ _ _ Hst) as Hperm.
  pose proof (choose_prepare_backups _ _ _ _ Hst) as Hback.
  pose proof (choose_prepare_entries _ _ _ _ Hst) as Hent.
  assert (length (exclusions b) <= 9)%nat as Hex.
  { unfold exclusions. rewrite length_app.
    destruct (is_pass (coord (ko b))), (is_pass (coord (last_move b))); simpl; lia. }
  assert (length (ignores st) = length (exclusions b)) as Hlen
    by (by rewrite Hperm).
  split_and!; [done| |congruence|lia|].
  - unfold ignores_array. rewrite length_app; simpl. lia.
  - rewrite <- (length_map fst), Hent.
    destruct (is_pass (coord (last_move b))); simpl; lia.
Qed.

(** *** The total of the local pool *)

Lemma choose_prepare_pool_total pp b to_play st :
  choose_prepare pp b to_play = Returns st ->
  lpd_total (lpd st) = d_sum (map snd (lpd_entries (lpd st))).
Proof.
  assert (forall st0, lpd_entries (lpd st0) = [] -> lpd_total (lpd st0) = 0 ->
            lpd_total (lpd (choose_contiguity b st0))
            = d_sum (map snd (lpd_entries (lpd (choose_contiguity b st0))))) as Hloop.
  { intros st0 He Ht. unfold choose_contiguity.
    destruct (is_pass (coord (last_move b))); simpl; [by rewrite He, Ht|].
    destruct (contiguity_loop_entries b (neighbors8 b (coord (last_move b))) st0)
      as (new & Hnew & _ & _ & Htot).
    rewrite Htot, Hnew, He, Ht. done. }
  unfold choose_prepare, choose_ko; unfold_outcome.
  destruct (is_pass (coord (ko b))); simpl.
  - intros [= <-]. by apply Hloop.
  - destruct (decide _); [|done]. intros [= <-]. by apply Hloop.
Qed.

(** *** Where the coordinate returned comes from *)

(** X7. A call of [playout_elo_choose] that returns gives [pass], or
    one of the neighbours of the last move, or what the sampler picked
    in the distribution with the locations to skip. *)
Theorem playout_elo_choose_provenance pp b to_play frand c b' :
  playout_elo_choose pp b to_play frand = Returns (c, b') ->
  c = pass
  \/ (is_pass (coord (last_move b)) = false
      /\ c ∈ neighbors8 b (coord (last_move b)))
  \/ (exists st, choose_prepare pp b to_play = Returns st
                 /\ c = probdist_pick (pd st) (ignores_array st)).
Proof.
  intros (st & d & Hst & Hpick & _ & _)%playout_elo_choose_returns.
  unfold choose_pick in Hpick.
  destruct (_ <? _).
  - destruct (is_pass (lpd_scan _ _)) eqn:Hscan; [done|].
    injection Hpick as <-. right; left.
    apply lpd_scan_coord in Hscan.
    rewrite (choose_prepare_entries _ _ _ _ Hst) in Hscan.
    destruct (is_pass (coord (last_move b))); [|done].
    by apply elem_of_nil in Hscan.
  - destruct (_ <=? _); injection Hpick as <-; [|by left].
    right; right. by exists st.
Qed.

(** *** The ko point *)

Lemma ignores_loop_keeps l l0 (x : coord_t) :
  x ∈ l0 -> x ∈ fold_left ignores_add l l0.
Proof.
  revert l0; induction l as [|y l IH]; intros l0 Hx; simpl; [done|].
  apply IH. rewrite ignores_add_perm. apply elem_of_app; by left.
Qed.

(** X5. A call of [playout_elo_choose] does not return the ko point
    when the ko point is no neighbour of the last move, or there is no
    last move, provided the sampler, when the call asks it, returns
    none of the locations it was told to skip. *)
Theorem ko_point_excluded pp b to_play frand c b' :
  playout_elo_choose pp b to_play frand = Returns (c, b') ->
  is_pass (coord (ko b)) = false ->
  is_pass (coord (last_move b)) = true
  \/ coord (ko b) ∉ neighbors8 b (coord (last_move b)) ->
  (forall st, choose_prepare pp b to_play = Returns st ->
              probdist_pick (pd st) (ignores_array st) ∉ ignores st) ->
  c <> coord (ko b).
Proof.
  intros (st & d & Hst & Hpick & _ & _)%playout_elo_choose_returns Hko Hnb Hsampler ->.
  pose proof (choose_prepare_ignores _ _ _ _ Hst) as Hign. rewrite Hko in Hign.
  pose proof (choose_prepare_entries _ _ _ _ Hst) as Hent.
  unfold choose_pick in Hpick.
  destruct (_ <? _).
  - destruct (is_pass (lpd_scan _ _)) eqn:Hscan; [done|]. injection Hpick as Hpick.
    apply lpd_scan_coord in Hscan. rewrite Hpick, Hent in Hscan.
    destruct Hnb as [Hlast|Hnb]; [|destruct (is_pass (coord (last_move b)))].
    + rewrite Hlast in Hscan. by apply elem_of_nil in Hscan.
    + by apply elem_of_nil in Hscan.
    + done.
  - destruct (_ <=? _); injection Hpick as Hpick.
    + apply (Hsampler st Hst). rewrite Hpick, Hign.
      apply ignores_loop_keeps. by apply list_elem_of_singleton.
    + rewrite <- Hpick in Hko. done.
Qed.

(** *** Calling again *)

Lemma probdist_mute_same d1 d2 c :
  pd_same d1 d2 -> pd_same (probdist_mute d1 c) (probdist_mute d2 c).
Proof.
  intros (Hs & Ht & Hr & Hi). unfold pd_same, probdist_mute; simpl.
  split_and!; [done|by rewrite Ht, Hi| |done].
  intros y. rewrite Hs, Hr, Hi.
  destruct (decide (coord_y c (pd_size d2) = y)) as [<-|Hne].
  - by rewrite !fn_lookup_insert.
  - by rewrite !fn_lookup_insert_ne.
Qed.

Lemma ignore_move_same s1 s2 c :
  state_same s1 s2 -> state_same (ignore_move s1 c) (ignore_move s2 c).
Proof.
  intros (Hi & Hl & Hp). unfold state_same, ignore_move; simpl.
  split_and!; [by rewrite Hi| |by apply probdist_mute_same].
  destruct Hp as (Hs & _ & Hr & _). by rewrite Hl, Hs, Hr.
Qed.

Lemma contiguity_step_same b1 b2 s1 s2 c :
  gamma b1 = gamma b2 ->
  state_same s1 s2 -> state_same (contiguity_step b1 s1 c) (contiguity_step b2 s2 c).
Proof.
  intros Hg Hs. apply (ignore_move_same _ _ c) in Hs as (Hi & Hl & Hp).
  unfold state_same, contiguity_step, contiguity_gamma, probdist_one.
  simpl in *. rewrite Hg.
  assert (items (pd s1) c = items (pd s2) c) as ->.
  { destruct Hp as (_ & _ & _ & Hit). apply Hit. }
  split_and!; [done| |done].
  by injection Hl as -> -> -> ->.
Qed.

Lemma contiguity_loop_same b1 b2 l s1 s2 :
  gamma b1 = gamma b2 ->
  state_same s1 s2 ->
  state_same (fold_left (contiguity_step b1) l s1)
             (fold_left (contiguity_step b2) l s2).
Proof.
  intros Hg. revert s1 s2; induction l as [|c l IH]; intros s1 s2 Hs; simpl; [done|].
  by apply IH, contiguity_step_same.
Qed.

Lemma choose_prepare_same pp b1 b2 to_play :
  callback pp = None ->
  board_agree b1 b2 to_play ->
  match choose_prepare pp b1 to_play, choose_prepare pp b2 to_play with
  | Returns s1, Returns s2 => state_same s1 s2
  | Aborts w1, Aborts w2 => w1 = w2
  | _, _ => False
  end.
Proof.
  intros Hcb (Hko & Hlast & Hn & Hg & Hp).
  assert (state_same (choose_entry pp b1 to_play) (choose_entry pp b2 to_play)) as He.
  { unfold state_same, choose_entry. rewrite Hcb; simpl.
    split_and!; [done| |done]. destruct Hp as (_ & -> & _). done. }
  unfold choose_prepare, choose_ko, choose_contiguity; unfold_outcome.
  rewrite Hko, Hlast, Hn.
  destruct (is_pass (coord (ko b2))); simpl.
  - destruct (is_pass (coord (last_move b2))); simpl; [done|].
    by apply contiguity_loop_same.
  - destruct (decide _); [|done].
    destruct (is_pass (coord (last_move b2))); simpl.
    + by apply ignore_move_same.
    + by apply contiguity_loop_same, ignore_move_same.
Qed.

Lemma choose_pick_same s1 s2 frand :
  sampler_extensional ->
  state_same s1 s2 -> choose_pick s1 frand = choose_pick s2 frand.
Proof.
  intros Hext (Hi & Hl & Hp).
  unfold choose_pick, choose_stab, ignores_array.
  rewrite Hi, Hl, (Hext _ _ _ Hp).
  destruct Hp as (_ & -> & _). done.
Qed.

Lemma playout_elo_choose_agree pp b1 b2 to_play frand :
  callback pp = None ->
  sampler_extensional ->
  board_agree b1 b2 to_play ->
  returned_coord (playout_elo_choose pp b1 to_play frand)
  = returned_coord (playout_elo_choose pp b2 to_play frand).
Proof.
  intros Hcb Hext Hag.
  pose proof (choose_prepare_same pp b1 b2 to_play Hcb Hag) as Hprep.
  unfold playout_elo_choose, choose_repair; unfold_outcome. rewrite Hcb.
  destruct (choose_prepare pp b1 to_play) as [s1|w1],
           (choose_prepare pp b2 to_play) as [s2|w2]; try done; [|by subst].
  rewrite (choose_pick_same s1 s2 frand Hext Hprep).
  by destruct (choose_pick s2 frand).
Qed.

(** X9. Without a callback, and with a sampler that reads only the
    contents of the distribution, a call of [playout_elo_choose] that
    returned leaves a board on which every later call, whatever the
    draw, decides as it would have on the board before: the same
    coordinate, or the same termination. *)
Theorem playout_elo_choose_again pp b to_play frand c b' :
  callback pp = None ->
  sampler_extensional ->
  playout_elo_choose pp b to_play frand = Returns (c, b') ->
  forall frand',
    returned_coord (playout_elo_choose pp b' to_play frand')
    = returned_coord (playout_elo_choose pp b to_play frand').
Proof.
  intros Hcb Hext Hrun frand'.
  apply playout_elo_choose_agree; [done..|].
  pose proof (playout_elo_choose_no_callback _ _ _ _ _ _ Hcb Hrun) as [Hsame _].
  apply playout_elo_choose_returns in Hrun as (st & d & _ & _ & _ & ->).
  by split_and!.
Qed.

(** *** With a callback *)

Lemma choose_prepare_btotal pp b to_play st :
  choose_prepare pp b to_play = Returns st ->
  btotal (lpd st) = total (prob b to_play).
Proof.
  intros Hst. by destruct (choose_prepare_backed_up _ _ _ _ Hst) as (_ & ? & _).
Qed.

Lemma choose_repair_rebuilds pp cb b to_play st :
  callback pp = Some cb ->
  (d_abs (total (choose_rebuild b to_play (pd st)) - btotal (lpd st))
   <? PROBDIST_EPSILON) = true ->
  choose_repair pp b to_play st = Returns (choose_rebuild b to_play (pd st)).
Proof. intros Hcb Hlt. unfold choose_repair. by rewrite Hcb, Hlt. Qed.


End Elo.

Arguments probdist : clear implicits.
Arguments board : clear implicits.
Arguments lprobdist : clear implicits.
Arguments choose_state : clear implicits.
Arguments prior_map : clear implicits.
Arguments patternset : clear implicits.
Arguments elo_policy : clear implicits.
Arguments ps {D pattern_config} _.
Arguments pc {D pattern_config} _.
Arguments fg {D pattern_config} _.
Arguments selfatari {D pattern_config} _.
Arguments choose {D pattern_config} _.
Arguments assess {D pattern_config} _.
Arguments callback {D pattern_config} _.
Arguments pattern_gamma {D H pattern_config} _ _ _ _.
Arguments elo_get_probdist_step {D H pattern_config} _ _ _ _ _ _.
Arguments elo_get_probdist {D H pattern_config} _ _ _ _ _.
Arguments team_gamma {D H pattern_config} _ _ _ _ _.
Arguments choose_entry {D H pattern_config} _ _ _.
Arguments choose_prepare {D H pattern_config} _ _ _ _.
Arguments choose_repair {D H pattern_config} _ _ _ _ _ _.
Arguments playout_elo_choose {D H pattern_config} _ _ _ _ _ _ _ _.
Arguments playout_elo_assess {D H pattern_config} _ _ _ _.
Arguments assess_probdist {D H pattern_config} _ _ _.
Arguments playout_elo_choose_plain {D H pattern_config} _ _ _ _ _ _.
Arguments playout_elo_callback {D pattern_config} _ _.

(** * Properties that rest on exact arithmetic

    Here a [double] is a rational: sums and products are exact, and the
    comparisons are those of the order of the rationals. *)

Section Exact.
Local Open Scope Q_scope.

Variable pattern_config : Type.
Variable pattern_match :
  pattern_config -> pattern_spec -> board Q -> move -> list feature.
Variable PROBDIST_EPSILON : Q.
Variable FEAT_CONTIGUITY : Z.
Variable probdist_pick : probdist Q -> list coord_t -> coord_t.

Variable board_gamma_update :
  board Q -> coord_t -> stone -> probdist Q -> probdist Q.

(** Two distributions with equal contents, the sums as rationals. *)
Definition pd_equal (p q : probdist Q) : Prop :=
  pd_size p = pd_size q /\ total p == total q
  /\ (forall y, rowtotals p y == rowtotals q y)
  /\ (forall c, items p c = items q c).

(** The candidates of row [y] on a board of side [size]. *)
Definition in_row (size y : Z) (l : list coord_t) : list coord_t :=
  List.filter (fun c => bool_decide (coord_y c size = y)) l.

(** The sampler never returns a location of weight zero. *)
Definition sampler_skips_zero : Prop :=
  forall d ign, is_pass (probdist_pick d ign) = false ->
                ~ items d (probdist_pick d ign) == 0.

Lemma Q_ltb_false (x y : Q) : (x <? y)%D = false <-> y <= x.
Proof.
  unfold d_ltb; simpl. rewrite negb_false_iff. apply Qle_bool_iff.
Qed.

Lemma Q_leb_false (x y : Q) : (x <=? y)%D = false <-> y < x.
Proof.
  unfold d_leb; simpl. split.
  - intros Hb. apply Qnot_le_lt. intros Hle. apply Qle_bool_iff in Hle. congruence.
  - intros Hlt. destruct (Qle_bool x y) eqn:E; [|done].
    apply Qle_bool_iff in E. lra.
Qed.

(** ** Muting and setting to zero *)

(** Muting a location does to the total and to the row totals what
    setting its weight to 0 does; the item of the location is kept by
    the one and zeroed by the other. *)
Lemma probdist_mute_sums (d : probdist Q) c :
  total (probdist_mute d c) == total (probdist_set d c 0)
  /\ (forall y, rowtotals (probdist_mute d c) y == rowtotals (probdist_set d c 0) y)
  /\ items (probdist_mute d c) c = items d c
  /\ items (probdist_set d c 0) c = 0.
Proof.
  repeat split; simpl.
  - lra.
  - intros y. destruct (decide (coord_y c (pd_size d) = y)) as [<-|Hne].
    + rewrite !fn_lookup_insert. simpl. lra.
    + rewrite !fn_lookup_insert_ne by done. reflexivity.
  - by rewrite fn_lookup_insert.
Qed.

(** ** Picking below the threshold *)

Lemma choose_pick_pass st frand :
  0 <= frand ->
  0 <= lpd_total (lpd st) + total (pd st) ->
  lpd_total (lpd st) < PROBDIST_EPSILON ->
  total (pd st) < PROBDIST_EPSILON ->
  choose_pick PROBDIST_EPSILON probdist_pick st frand = Returns pass.
Proof.
  intros Hr Hsum Hl Hg. unfold choose_pick, choose_stab.
  replace (_ <? _)%D with false.
  2:{ symmetry. apply Q_ltb_false. simpl.
      pose proof (Qmult_le_0_compat _ _ Hr Hsum). lra. }
  replace (_ <=? _)%D with false; [done|].
  symmetry. by apply Q_leb_false.
Qed.

(** The entry at which the scan stops has a positive weight when the
    scan starts from a positive value. *)
Lemma lpd_scan_positive (stab : Q) entries :
  0 < stab ->
  is_pass (lpd_scan stab entries) = false ->
  exists w, (lpd_scan stab entries, w) ∈ entries /\ 0 < w.
Proof.
  revert stab; induction entries as [|[c item] rest IH]; intros stab Hpos;
    cbn [lpd_scan]; [done|].
  destruct (stab <=? item)%D eqn:Hle.
  - intros _. exists item. split; [by apply elem_of_cons; left|].
    apply Qle_bool_iff in Hle. lra.
  - intros Hc. apply Q_leb_false in Hle.
    destruct (IH (stab - item)%D) as (w & Hw & Hw0); [simpl; lra|done|].
    exists w. split; [by apply elem_of_cons; right|done].
Qed.

(** C7 (as the code has it). When the local pool's total and the total
    of the distribution after the exclusions are both below the
    threshold, their sum is not negative and the value drawn is not
    negative, the pick is [pass] and the process goes on.  When the
    scaled draw is positive, the location picked has a weight that is
    not zero, given a sampler that returns no location of weight zero. *)
Theorem choose_pick_under_epsilon (pp : elo_policy Q pattern_config) b to_play st frand :
  choose_prepare FEAT_CONTIGUITY pp b to_play = Returns st ->
  (0 <= frand ->
   0 <= lpd_total (lpd st) + total (pd st) ->
   lpd_total (lpd st) < PROBDIST_EPSILON ->
   total (pd st) < PROBDIST_EPSILON ->
   choose_pick PROBDIST_EPSILON probdist_pick st frand = Returns pass)
  /\ (sampler_skips_zero ->
      0 < choose_stab st frand ->
      forall c, choose_pick PROBDIST_EPSILON probdist_pick st frand = Returns c ->
                is_pass c = false ->
                ~ probdist_one (pd st) c == 0).
Proof.
  intros Hprep. split; [apply choose_pick_pass|].
  intros Hsampler Hpos c Hpick Hc Hzero.
  unfold choose_pick in Hpick.
  destruct (_ <? _)%D.
  - destruct (is_pass (lpd_scan _ _)) eqn:Hscan; [done|]. injection Hpick as <-.
    destruct (lpd_scan_positive _ _ Hpos Hscan) as (w & Hw & Hw0).
    apply (choose_prepare_pool _ _ _ _ _ _ Hprep) in Hw.
    rewrite Hw in Hw0. simpl in Hw0. unfold probdist_one in Hzero.
    rewrite Hzero in Hw0. lra.
  - destruct (_ <=? _)%D; injection Hpick as <-; [|done].
    by apply (Hsampler _ _ Hc).
Qed.

(** ** The priors *)

Lemma fold_left_Qplus (l : list Q) a : fold_left Qplus l a == a + fold_left Qplus l 0.
Proof.
  revert a; induction l as [|x l IH]; intros a; simpl; [lra|].
  rewrite (IH (a + x)), (IH (0 + x)). lra.
Qed.

Lemma d_sum_cons (x : Q) l : d_sum (x :: l) == x + d_sum l.
Proof. unfold d_sum; simpl. rewrite fold_left_Qplus. lra. Qed.

Lemma d_sum_div (l : list Q) T : d_sum (List.map (fun x => x / T) l) == d_sum l / T.
Proof.
  induction l as [|x l IH]; simpl.
  - unfold d_sum; simpl. unfold Qdiv. lra.
  - rewrite !d_sum_cons, IH. unfold Qdiv. lra.
Qed.

Lemma d_sum_filter_le {A} (w : A -> Q) (keep : A -> bool) l :
  (forall x, 0 <= w x) ->
  0 <= d_sum (List.map w (List.filter keep l))
  /\ d_sum (List.map w (List.filter keep l)) <= d_sum (List.map w l).
Proof.
  intros Hw. induction l as [|x l [IH0 IH]]; simpl.
  - unfold d_sum; simpl. lra.
  - pose proof (Hw x). destruct (keep x); simpl; rewrite ?d_sum_cons; lra.
Qed.

Lemma d_product_nonneg (l : list Q) a :
  0 <= a -> Forall (Qle 0) l -> 0 <= fold_left Qmult l a.
Proof.
  revert a; induction l as [|x l IH]; intros a Ha Hl; simpl; [done|].
  apply Forall_cons in Hl as [Hx Hl]. apply IH; [|done].
  by apply Qmult_le_0_compat.
Qed.

Lemma team_gamma_nonneg (pset : patternset Q pattern_config) b to_play c :
  (forall ft g, fg pset !! ft = Some g -> 0 <= g) ->
  0 <= team_gamma pattern_match pset b to_play c.
Proof.
  intros Hg. unfold team_gamma. destruct (skipped _ _ _); simpl; [lra|].
  apply d_product_nonneg; [simpl; lra|].
  induction (pattern_match _ _ _ _) as [|ft l IH]; simpl; constructor; [|done].
  unfold table_weight. destruct (fg pset !! ft) eqn:E; [by eapply Hg|simpl; lra].
Qed.

(** The total [elo_get_probdist] accumulates over candidates that are
    distinct and start at zero. *)
Lemma elo_loop_total (pset : patternset Q pattern_config) b to_play l st :
  NoDup l ->
  (forall c, c ∈ l -> items st.2 c = 0) ->
  total (fold_left (elo_get_probdist_step pattern_match pset b to_play) l st).2
  == total st.2
     + d_sum (List.map (team_gamma pattern_match pset b to_play) l).
Proof.
  revert st; induction l as [|x l IH]; intros st Hnd H0; simpl.
  - unfold d_sum; simpl. lra.
  - apply NoDup_cons in Hnd as [Hx Hnd].
    rewrite IH, elo_get_probdist_step_spec, d_sum_cons; [|done|].
    + simpl. rewrite (H0 x) by (by apply elem_of_cons; left). lra.
    + intros c Hc. rewrite elo_get_probdist_step_spec. simpl.
      rewrite fn_lookup_insert_ne by (intros ->; done).
      apply H0. by apply elem_of_cons; right.
Qed.

(** C8. In one call of [playout_elo_assess], every candidate marked as
    considered is reported with its weight under the assess
    configuration divided by the total of the call's own distribution,
    which is the sum of the weights of all candidates (the legal ones:
    the others weigh 0); the values reported sum to at most 1; and the
    call gives the same values whatever the distributions of the board
    hold.  The candidates are distinct, no gamma is negative, the total
    weight is positive, and the pattern matcher does not read the
    distributions. *)
Theorem playout_elo_assess_priors (pp : elo_policy Q pattern_config) map games :
  NoDup (f (map_b map)) ->
  (forall ft g, fg (assess pp) !! ft = Some g -> 0 <= g) ->
  (forall cfg spec b s d m,
     pattern_match cfg spec (with_prob b s d) m = pattern_match cfg spec b m) ->
  0 < probdist_total (assess_probdist pattern_match pp map) ->
  let weight := team_gamma pattern_match (assess pp) (map_b map) (map_to_play map) in
  let all := probdist_total (assess_probdist pattern_match pp map) in
  let priors := playout_elo_assess pattern_match pp map games in
  priors = List.map (fun c => (c, weight c / all, games))
             (List.filter (consider map) (f (map_b map)))
  /\ all == d_sum (List.map weight (f (map_b map)))
  /\ d_sum (List.map (fun e => e.1.2) priors) <= 1
  /\ forall side d,
       playout_elo_assess pattern_match pp
         (on_board map (with_prob (map_b map) side d)) games = priors.
Proof.
  intros Hnd Hg Hpm Hpos weight all priors.
  assert (all == d_sum (List.map weight (f (map_b map)))) as Hall.
  { unfold all, probdist_total, assess_probdist, elo_get_probdist.
    rewrite elo_loop_total; [|done|done].
    unfold weight. cbn [total probdist_alloca snd].
    change (@d_zero Q Q_double) with 0%Q. lra. }
  pose proof (playout_elo_assess_values pattern_config pattern_match pp map games)
    as Hvalues. fold weight all priors in Hvalues.
  repeat split; [done|done| |].
  - rewrite Hvalues, List.map_map. simpl.
    rewrite <- (List.map_map weight (fun x => x / all)), d_sum_div.
    destruct (d_sum_filter_le weight (consider map) (f (map_b map))) as [_ Hle].
    { intros x. by apply team_gamma_nonneg. }
    apply Qle_shift_div_r; [done|]. lra.
  - intros side d. by apply playout_elo_assess_isolated.
Qed.

(** ** The sums [elo_get_probdist] keeps *)

Lemma Q_ltb_true (x y : Q) : (x <? y)%D = true <-> x < y.
Proof.
  unfold d_ltb; simpl. rewrite negb_true_iff. split.
  - intros Hb. apply Qnot_le_lt. intros Hle. apply Qle_bool_iff in Hle. congruence.
  - intros Hlt. destruct (Qle_bool y x) eqn:E; [|done].
    apply Qle_bool_iff in E. lra.
Qed.

Lemma elo_loop_delta (pset : patternset Q pattern_config) b to_play l st :
  NoDup l ->
  let w := team_gamma pattern_match pset b to_play in
  let r := (fold_left (elo_get_probdist_step pattern_match pset b to_play) l st).2 in
  total r == total st.2 + d_sum (List.map (fun c => w c - items st.2 c) l)
  /\ forall y,
       rowtotals r y
       == rowtotals st.2 y
          + d_sum (List.map (fun c => w c - items st.2 c) (in_row (pd_size st.2) y l)).
Proof.
  intros Hnd w r; subst r. revert st; induction l as [|x l IH]; intros st.
  - simpl. unfold d_sum; simpl. split; [lra|intros y; lra].
  - apply NoDup_cons in Hnd as [Hx Hnd].
    destruct (IH Hnd (elo_get_probdist_step pattern_match pset b to_play st x))
      as [IHt IHr].
    assert (forall l', x ∉ l' ->
              List.map (fun c => w c - items (elo_get_probdist_step pattern_match
                                               pset b to_play st x).2 c) l'
              = List.map (fun c => w c - items st.2 c) l') as Hmap.
    { intros l' Hl'. induction l' as [|c l' IHl']; simpl; [done|].
      rewrite IHl' by (intros ?; apply Hl'; by apply elem_of_cons; right).
      rewrite elo_get_probdist_step_spec; simpl.
      rewrite fn_lookup_insert_ne; [done|].
      intros ->. apply Hl'. by apply elem_of_cons; left. }
    split.
    + cbn [fold_left List.map]. rewrite IHt, Hmap, d_sum_cons by done.
      rewrite elo_get_probdist_step_spec. simpl. fold w. lra.
    + intros y. cbn [fold_left]. rewrite IHr, Hmap.
      2:{ unfold in_row. intros [Hin _]%list_elem_of_In%List.filter_In.
          by apply Hx, list_elem_of_In. }
      rewrite elo_get_probdist_step_spec. cbn [snd pd_size probdist_set rowtotals].
      unfold in_row at 2. cbn [List.filter].
      fold (in_row (pd_size st.2) y l). fold w.
      destruct (bool_decide_reflect (coord_y x (pd_size st.2) = y)) as [<-|Hne].
      * rewrite fn_lookup_insert. cbn [List.map]. rewrite d_sum_cons. simpl. lra.
      * rewrite fn_lookup_insert_ne by done. lra.
Qed.

(** X2. With distinct candidates in [b->f], [elo_get_probdist] moves the
    total of the distribution by the sum, over the candidates, of the
    weight written less the weight found, and the total of each row by
    the same sum over the candidates of that row. *)
Theorem elo_get_probdist_sums (pset : patternset Q pattern_config) b to_play d :
  NoDup (f b) ->
  let w := team_gamma pattern_match pset b to_play in
  let r := (elo_get_probdist pattern_match pset b to_play d).2 in
  total r == total d + d_sum (List.map (fun c => w c - items d c) (f b))
  /\ forall y,
       rowtotals r y
       == rowtotals d y
          + d_sum (List.map (fun c => w c - items d c) (in_row (pd_size d) y (f b))).
Proof.
  intros Hnd. apply (elo_loop_delta pset b to_play (f b) (0%Z, d) Hnd).
Qed.

Lemma pd_equal_trans (p q r : probdist Q) :
  pd_equal p q -> pd_equal q r -> pd_equal p r.
Proof.
  intros (Hs1 & Ht1 & Hr1 & Hi1) (Hs2 & Ht2 & Hr2 & Hi2).
  split_and!; [congruence|by rewrite Ht1| |].
  - intros y. by rewrite Hr1.
  - intros c. by rewrite Hi1.
Qed.

(** A loop over candidates that already hold their weights changes
    nothing. *)
Lemma elo_loop_fixed (pset : patternset Q pattern_config) b to_play l st :
  (forall c, c ∈ l -> items st.2 c = team_gamma pattern_match pset b to_play c) ->
  pd_equal (fold_left (elo_get_probdist_step pattern_match pset b to_play) l st).2 st.2.
Proof.
  revert st; induction l as [|x l IH]; intros st Hw; simpl.
  - split_and!; done.
  - assert (pd_equal (elo_get_probdist_step pattern_match pset b to_play st x).2 st.2)
      as Hstep.
    { rewrite elo_get_probdist_step_spec. cbn [snd].
      pose proof (Hw x ltac:(by apply elem_of_cons; left)) as Hx.
      unfold pd_equal, probdist_set; cbn [pd_size total rowtotals items].
      split_and!; [done|rewrite Hx; simpl; lra| |].
      - intros y. destruct (decide (coord_y x (pd_size st.2) = y)) as [<-|Hne].
        + rewrite fn_lookup_insert, Hx. simpl. lra.
        + by rewrite fn_lookup_insert_ne.
      - intros c. destruct (decide (x = c)) as [<-|Hne].
        + by rewrite fn_lookup_insert.
        + by rewrite fn_lookup_insert_ne. }
    eapply pd_equal_trans; [|exact Hstep].
    apply IH. intros c Hc.
    destruct Hstep as (_ & _ & _ & ->). apply Hw. by apply elem_of_cons; right.
Qed.

(** X3. [elo_get_probdist] run again on the distribution it has filled,
    for the same board, side and configuration, returns the same count
    and leaves every weight, every row total and the total as they
    are. *)
Theorem elo_get_probdist_idempotent (pset : patternset Q pattern_config) b to_play d :
  let once := elo_get_probdist pattern_match pset b to_play d in
  let twice := elo_get_probdist pattern_match pset b to_play once.2 in
  twice.1 = once.1 /\ pd_equal twice.2 once.2.
Proof.
  intros once twice. split.
  - unfold twice, once, elo_get_probdist. by rewrite !elo_loop_moves.
  - apply (elo_loop_fixed pset b to_play (f b) (0%Z, once.2)). intros c Hc.
    pose proof (elo_loop_items pattern_config pattern_match pset b to_play
                  (f b) (0%Z, d) c) as Hit.
    unfold probdist_one in Hit. unfold once, elo_get_probdist; cbn [snd].
    rewrite Hit. by rewrite decide_True.
Qed.

(** ** The variant without BOARD_GAMMA *)

(** X16. When every candidate of [b->f] is a pass, an illegal move or
    an own one-point eye, no callback is registered and the threshold
    is positive, the variant of [playout_elo_choose] that builds its own
    distribution returns [pass], and the sampler is not asked. *)
Theorem playout_elo_choose_plain_pass (pp : elo_policy Q pattern_config) b to_play :
  callback pp = None ->
  0 < PROBDIST_EPSILON ->
  (forall c, c ∈ f b -> skipped b to_play c = true) ->
  playout_elo_choose_plain pattern_match PROBDIST_EPSILON probdist_pick pp b to_play
  = pass.
Proof.
  intros Hcb Heps Hskip. unfold playout_elo_choose_plain. rewrite Hcb.
  destruct (elo_loop_fixed (choose pp) b to_play (f b)
              (0%Z, probdist_alloca (board_size b))) as (_ & Ht & _).
  { intros c Hc. unfold team_gamma. by rewrite (Hskip c Hc). }
  fold (elo_get_probdist pattern_match (choose pp) b to_play
          (probdist_alloca (board_size b))) in Ht.
  replace (_ <? _)%D with true; [done|].
  symmetry. apply Q_ltb_true. rewrite Ht. simpl. done.
Qed.

(** ** A local stab always lands *)

Lemma lpd_exhausted_sum (stab : Q) entries :
  entries <> [] ->
  lpd_exhausted stab entries = true ->
  d_sum (List.map snd entries) < stab.
Proof.
  revert stab; induction entries as [|[c item] rest IH]; intros stab Hne;
    [done|]. cbn [lpd_exhausted List.map snd].
  intros [Hlt Hrest]%andb_true_iff. apply negb_true_iff, Q_leb_false in Hlt.
  rewrite d_sum_cons.
  destruct rest as [|e rest].
  - unfold d_sum; simpl. lra.
  - specialize (IH (stab - item)%D ltac:(done) Hrest).
    cbn [d_sub Q_double] in IH. lra.
Qed.

(** X6. In exact arithmetic the scan of the local pool cannot run out of
    entries: when the threshold is not negative and the last move has
    neighbours, none of them the pass coordinate, the pick returns a
    coordinate, whatever the draw.  The termination on a local overstab
    is reached by rounding alone. *)
Theorem local_overstab_unreachable (pp : elo_policy Q pattern_config) b to_play st frand :
  choose_prepare FEAT_CONTIGUITY pp b to_play = Returns st ->
  0 <= PROBDIST_EPSILON ->
  is_pass (coord (last_move b)) = false ->
  neighbors8 b (coord (last_move b)) <> [] ->
  Forall (fun c => is_pass c = false) (neighbors8 b (coord (last_move b))) ->
  exists c, choose_pick PROBDIST_EPSILON probdist_pick st frand = Returns c.
Proof.
  intros Hst Heps Hlast Hne Hpass.
  pose proof (choose_prepare_entries _ _ _ _ _ _ Hst) as Hent.
  pose proof (choose_prepare_pool_total _ _ _ _ _ _ Hst) as Htot.
  rewrite Hlast in Hent.
  unfold choose_pick.
  destruct (_ <? _)%D eqn:Hlt.
  2:{ destruct (_ <=? _)%D; eauto. }
  destruct (is_pass (lpd_scan _ _)) eqn:Hscan; [exfalso|eauto].
  rewrite lpd_scan_exhausted in Hscan.
  2:{ rewrite <- Hent in Hpass. by apply Forall_map in Hpass. }
  apply lpd_exhausted_sum in Hscan.
  2:{ intros Hnil. rewrite Hnil in Hent. simpl in Hent. congruence. }
  apply Q_ltb_true in Hlt. rewrite Htot in Hlt.
  cbn [d_sub Q_double] in Hlt. lra.
Qed.

(** ** Where a local stab lands *)

(** X18. The scan of the local pool draws in proportion to the weights:
    in exact arithmetic it stops at the entry [k] when the stab
    exceeds the sum of the first [j + 1] weights for every [j] before
    [k], and does not exceed the sum of the first [k + 1]. *)
Theorem lpd_scan_partial_sums (stab : Q) entries (k : nat) c w :
  entries !! k = Some (c, w) ->
  (forall j, (j < k)%nat -> d_sum (List.map snd (take (S j) entries)) < stab) ->
  stab <= d_sum (List.map snd (take (S k) entries)) ->
  lpd_scan stab entries = c.
Proof.
  revert stab k; induction entries as [|[c0 w0] rest IH]; intros stab k Hk Hbefore Hat;
    [done|]. cbn [lpd_scan].
  destruct k as [|k].
  - injection Hk as -> ->. cbn [take List.map snd] in Hat.
    rewrite d_sum_cons in Hat. replace (stab <=? w)%D with true; [done|].
    symmetry. apply Qle_bool_iff. unfold d_sum in Hat; simpl in Hat. lra.
  - replace (stab <=? w0)%D with false.
    2:{ symmetry. apply Q_leb_false.
        pose proof (Hbefore 0%nat ltac:(lia)) as H0.
        cbn [take List.map snd] in H0. rewrite d_sum_cons in H0.
        unfold d_sum in H0; simpl in H0. lra. }
    apply (IH (stab - w0)%D k Hk).
    + intros j Hj. pose proof (Hbefore (S j) ltac:(lia)) as HS.
      cbn [take List.map snd] in HS. rewrite d_sum_cons in HS. simpl. lra.
    + cbn [take List.map snd] in Hat. rewrite d_sum_cons in Hat. simpl. lra.
Qed.

(** ** The two totals at the pick *)

Lemma contiguity_loop_totals b l (st : choose_state Q) :
  let st' := fold_left (contiguity_step FEAT_CONTIGUITY b) l st in
  total (pd st') == total (pd st) - d_sum (List.map (items (pd st)) l)
  /\ lpd_total (lpd st')
     == lpd_total (lpd st)
        + d_sum (List.map (items (pd st)) l) * contiguity_gamma FEAT_CONTIGUITY b
  /\ forall c, items (pd st') c = items (pd st) c.
Proof.
  revert st; induction l as [|x l IH]; intros st; cbn [fold_left List.map].
  - unfold d_sum; simpl. split; [lra|]. split; [lra|done].
  - destruct (IH (contiguity_step FEAT_CONTIGUITY b st x)) as (IHt & IHl & IHi).
    assert (List.map (items (pd (contiguity_step FEAT_CONTIGUITY b st x))) l
            = List.map (items (pd st)) l) as Hmap by reflexivity.
    rewrite Hmap in IHt, IHl. rewrite d_sum_cons.
    split; [|split].
    + rewrite IHt. simpl. lra.
    + rewrite IHl. unfold contiguity_step, probdist_one.
      cbn [lpd lpd_total ignore_move pd probdist_mute items d_add d_mul Q_double].
      ring.
    + intros c. by rewrite IHi.
Qed.

(** X10. The two totals a draw is scaled by.  When the move is picked,
    the total of the distribution is the total it had after the
    callback, if any, less the weight of every location excluded, as
    often as the location was met: a ko point that neighbours the last
    move is taken out twice.  The total of the local pool is the sum of
    the weights of the neighbours of the last move, times the
    contiguity gamma. *)
Theorem choose_prepare_totals (pp : elo_policy Q pattern_config) b to_play st :
  choose_prepare FEAT_CONTIGUITY pp b to_play = Returns st ->
  let d0 := pd (choose_entry pp b to_play) in
  let nbrs := if is_pass (coord (last_move b)) then []
              else neighbors8 b (coord (last_move b)) in
  total (pd st) == total d0 - d_sum (List.map (items d0) (exclusions b))
  /\ lpd_total (lpd st)
     == d_sum (List.map (items d0) nbrs) * contiguity_gamma FEAT_CONTIGUITY b.
Proof.
  intros Hst d0 nbrs.
  assert (forall st0,
            total (pd (choose_contiguity FEAT_CONTIGUITY b st0))
            == total (pd st0) - d_sum (List.map (items (pd st0)) nbrs)
            /\ lpd_total (lpd (choose_contiguity FEAT_CONTIGUITY b st0))
               == lpd_total (lpd st0)
                  + d_sum (List.map (items (pd st0)) nbrs)
                    * contiguity_gamma FEAT_CONTIGUITY b) as Hloop.
  { intros st0. unfold choose_contiguity, nbrs.
    destruct (is_pass (coord (last_move b))); simpl.
    - unfold d_sum; simpl. split; lra.
    - destruct (contiguity_loop_totals b (neighbors8 b (coord (last_move b))) st0)
        as (Ht & Hl & _). by split. }
  revert Hst. unfold choose_prepare, choose_ko, exclusions; unfold_outcome.
  fold nbrs. destruct (is_pass (coord (ko b))); cbn [negb].
  - intros [= <-]. destruct (Hloop (choose_entry pp b to_play)) as [Ht Hl].
    fold d0 in Ht, Hl. cbn [app]. split; [done|].
    rewrite Hl. unfold d0, choose_entry. simpl. lra.
  - destruct (decide _); [|done]. intros [= <-].
    destruct (Hloop (ignore_move (choose_entry pp b to_play) (coord (ko b))))
      as [Ht Hl].
    cbn [ignore_move pd probdist_mute items total lpd lpd_total] in Ht, Hl.
    fold d0 in Ht, Hl. cbn [app List.map]. rewrite d_sum_cons. split.
    + rewrite Ht. simpl. lra.
    + rewrite Hl. unfold choose_entry. simpl. lra.
Qed.

(** ** Neither a ko nor a last move *)

(** X8. On a board with neither a ko nor a last move, without a
    callback, with a draw, a total and a threshold that are not
    negative, [playout_elo_choose] excludes nothing and has no local
    pool: it returns what the sampler picks in the distribution of the
    side to move with nothing to skip, or [pass] when the total is
    below the threshold, and the distribution is as it was. *)
Theorem playout_elo_choose_quiet (pp : elo_policy Q pattern_config) b to_play frand :
  callback pp = None ->
  is_pass (coord (ko b)) = true ->
  is_pass (coord (last_move b)) = true ->
  0 <= PROBDIST_EPSILON ->
  0 <= frand ->
  0 <= total (prob b to_play) ->
  exists b',
    playout_elo_choose PROBDIST_EPSILON FEAT_CONTIGUITY probdist_pick
      board_gamma_update pp b to_play frand
    = Returns (if (PROBDIST_EPSILON <=? total (prob b to_play))%D
               then probdist_pick (prob b to_play) [pass]
               else pass, b')
    /\ prob b' to_play = prob b to_play.
Proof.
  intros Hcb Hko Hlast Heps Hr Ht.
  exists (with_prob b to_play (prob b to_play)). split.
  - apply playout_elo_choose_steps
      with (st := choose_contiguity FEAT_CONTIGUITY b (choose_entry pp b to_play)).
    + by apply choose_prepare_ko_unset.
    + unfold choose_contiguity, choose_entry, choose_pick, choose_stab, ignores_array.
      rewrite Hlast, Hcb. cbn.
      replace (negb _) with false.
      2:{ symmetry. apply (Q_ltb_false _ _).
          pose proof (Qmult_le_0_compat frand (0 + total (prob b to_play)) Hr) as Hm.
          lra. }
      by destruct (Qle_bool _ _).
    + unfold choose_repair, choose_contiguity, choose_entry, choose_restore.
      rewrite Hlast, Hcb. cbn. by destruct (prob b to_play).
  - unfold with_prob; simpl. by rewrite fn_lookup_insert.
Qed.

(** ** Priors for every candidate *)

Lemma filter_all {A} (keep : A -> bool) (l : list A) :
  (forall x, x ∈ l -> keep x = true) -> List.filter keep l = l.
Proof.
  induction l as [|x l IH]; intros Hk; simpl; [done|].
  rewrite (Hk x) by (by apply elem_of_cons; left).
  rewrite IH; [done|]. intros y Hy. apply Hk. by apply elem_of_cons; right.
Qed.

(** X11. When every candidate of [b->f] is considered, the candidates
    are distinct and the total weight is positive, the priors
    [playout_elo_assess] reports are one per candidate and sum to 1. *)
Theorem playout_elo_assess_sum_one (pp : elo_policy Q pattern_config) map games :
  NoDup (f (map_b map)) ->
  (forall c, c ∈ f (map_b map) -> consider map c = true) ->
  0 < probdist_total (assess_probdist pattern_match pp map) ->
  let priors := playout_elo_assess pattern_match pp map games in
  List.map (fun e => e.1.1) priors = f (map_b map)
  /\ d_sum (List.map (fun e => e.1.2) priors) == 1.
Proof.
  intros Hnd Hall Hpos priors. unfold priors.
  rewrite (playout_elo_assess_values pattern_config pattern_match pp map games).
  rewrite (filter_all _ _ Hall), !List.map_map. cbn [fst snd]. split.
  - apply List.map_id.
  - set (w := team_gamma pattern_match (assess pp) (map_b map) (map_to_play map)).
    set (T := probdist_total (assess_probdist pattern_match pp map)) in *.
    rewrite <- (List.map_map w (fun x => x / T)), d_sum_div.
    assert (T == d_sum (List.map w (f (map_b map)))) as <-.
    { unfold T, probdist_total, assess_probdist, elo_get_probdist.
      rewrite elo_loop_total; [|done|done].
      fold w. cbn [total probdist_alloca snd].
      change (@d_zero Q Q_double) with 0%Q. lra. }
    field. lra.
Qed.

End Exact.

(** * In binary64 *)

Section Binary64.

Variable pattern_config : Type.
Variable pattern_match :
  pattern_config -> pattern_spec -> board float -> move -> list feature.

(** A loop over candidates that are all skipped leaves a total of zero
    at zero: each round adds 0 - 0 to it. *)
Lemma elo_loop_nothing (pset : patternset float pattern_config) b to_play l st :
  (forall c, c ∈ l -> skipped b to_play c = true) ->
  (forall c, items st.2 c = 0%float) ->
  total st.2 = 0%float ->
  total (fold_left (elo_get_probdist_step pattern_match pset b to_play) l st).2
  = 0%float.
Proof.
  revert st; induction l as [|x l IH]; intros st Hskip Hit Ht; simpl; [done|].
  assert (team_gamma pattern_match pset b to_play x = 0%float) as Hx.
  { unfold team_gamma. by rewrite (Hskip x) by (by apply elem_of_cons; left). }
  apply IH.
  - intros c Hc. apply Hskip. by apply elem_of_cons; right.
  - intros c. rewrite elo_get_probdist_step_spec, Hx. simpl.
    destruct (decide (x = c)) as [->|Hne].
    + by rewrite fn_lookup_insert.
    + by rewrite fn_lookup_insert_ne.
  - rewrite elo_get_probdist_step_spec, Hx. simpl. rewrite Ht, Hit. reflexivity.
Qed.

(** X17. [playout_elo_assess] divides by the total without looking at
    it.  In binary64, when every candidate of [b->f] is a pass, an
    illegal move or an own one-point eye, the total is 0 and every
    value handed to [add_prior_value] is 0 / 0, not a number. *)
Theorem playout_elo_assess_no_candidate
    (pp : elo_policy float pattern_config) map games c v g :
  (forall x, x ∈ f (map_b map) ->
             skipped (map_b map) (map_to_play map) x = true) ->
  (c, v, g) ∈ playout_elo_assess pattern_match pp map games ->
  probdist_total (assess_probdist pattern_match pp map) = 0%float
  /\ PrimFloat.is_nan v = true.
Proof.
  intros Hskip Hin.
  assert (probdist_total (assess_probdist pattern_match pp map) = 0%float) as Ht.
  { unfold probdist_total, assess_probdist, elo_get_probdist.
    by apply elo_loop_nothing. }
  split; [done|].
  rewrite (playout_elo_assess_values pattern_config pattern_match pp map games) in Hin.
  apply list_elem_of_In, List.in_map_iff in Hin as (x & [= <- <- <-] & Hx).
  apply List.filter_In in Hx as [Hx _]. apply list_elem_of_In in Hx.
  rewrite Ht. unfold team_gamma. rewrite (Hskip x Hx). reflexivity.
Qed.

End Binary64.

(** * playout_elo_init (elo.c:327-403) *)

(** [cut_at ch s]: the characters of [s] before the first [ch], and what
    follows that [ch] when there is one.  With [":"] it is
    [next += strcspn(next, ":")] and the step over the colon (lines
    349-350); with ["="] it is [strchr(optspec, '=')] and the cut at the
    sign (lines 353-354), the value being [NULL] when there is none. *)
Fixpoint cut_at (ch : ascii) (s : string) : string * option string :=
  match s with
  | EmptyString => (EmptyString, None)
  | String a rest =>
      if Ascii.eqb a ch then (EmptyString, Some rest)
      else let r := cut_at ch rest in (String a r.1, r.2)
  end.

(** [tolower] on ASCII: the capitals A-Z to a-z. *)
Definition tolower (c : ascii) : ascii :=
  let n := N_of_ascii c in
  if ((65 <=? n) && (n <=? 90))%N then ascii_of_N (n + 32) else c.

Fixpoint lower (s : string) : string :=
  match s with
  | EmptyString => EmptyString
  | String a rest => String (tolower a) (lower rest)
  end.

(** [strcasecmp] of libc, of which only whether it is 0 is used. *)
Definition strcasecmp (s1 s2 : string) : Z :=
  if String.eqb (lower s1) (lower s2) then 0 else 1.

Lemma cut_at_shorter ch s t r :
  cut_at ch s = (t, Some r) -> (String.length r < String.length s)%nat.
Proof.
  revert t; induction s as [|a s IH]; intros t; simpl; [discriminate|].
  destruct (Ascii.eqb a ch).
  - intros [= <- <-]. lia.
  - destruct (cut_at ch s) as [t' [r'|]]; simpl; intros [= <- Hr].
    subst. specialize (IH _ eq_refl). lia.
Qed.

Definition inspect {A} (a : A) : {b | a = b} := exist _ a eq_refl.

(** How a call of [playout_elo_init] ends: it returns, the process
    exits, or the call writes past the end of [cgammafile] (line 392),
    after which the behaviour of the program is undefined. *)
Inductive init_result (P : Type) : Type :=
| Initialized (p : P)
| Exits (status : Z)
| Overruns.
Arguments Initialized {P} p.
Arguments Exits {P} status.
Arguments Overruns {P}.

(** ** The options, as the specification describes them *)

(** The pieces of [s] between its colons. *)
Fixpoint split_colon (s : string) : list string :=
  match s with
  | EmptyString => [EmptyString]
  | String a rest =>
      if Ascii.eqb a ":" then EmptyString :: split_colon rest
      else match split_colon rest with
           | t :: ts => String a t :: ts
           | [] => [String a EmptyString]
           end
  end.

(** The colon-separated tokens of an option string: its pieces, but for
    a last piece that is empty (the string is empty, or ends with a
    colon). *)
Definition colon_tokens (s : string) : list string :=
  match last (split_colon s) with
  | Some EmptyString => removelast (split_colon s)
  | _ => split_colon s
  end.

Definition option_name (t : string) : string := (cut_at "=" t).1.
Definition option_value (t : string) : option string := (cut_at "=" t).2.

(** The name of the token is [name], whatever the case of its letters. *)
Definition named (t name : string) : Prop := lower (option_name t) = name.

(** A token the specification rejects: its name is none of the four, or
    it names an option that needs a value and gives none. *)
Definition invalid_option (t : string) : Prop :=
  ~ (named t "selfatari" \/ named t "precisesa"
     \/ named t "gammafile" \/ named t "xspat")
  \/ ((named t "selfatari" \/ named t "gammafile" \/ named t "xspat")
      /\ option_value t = None).

Lemma strcasecmp_0 s name :
  lower name = name -> strcasecmp s name = 0 <-> lower s = name.
Proof.
  intros Hn. unfold strcasecmp. rewrite Hn.
  destruct (String.eqb (lower s) name) eqn:E.
  - apply String.eqb_eq in E. by split.
  - apply String.eqb_neq in E. split; [discriminate|done].
Qed.

Lemma split_colon_cut s :
  split_colon s
  = (cut_at ":" s).1 :: match (cut_at ":" s).2 with
                        | Some r => split_colon r
                        | None => []
                        end.
Proof.
  induction s as [|a s IH]; simpl; [reflexivity|].
  destruct (Ascii.eqb a ":"); simpl; [reflexivity|].
  rewrite IH. reflexivity.
Qed.

Lemma split_colon_not_nil s : split_colon s <> [].
Proof. rewrite split_colon_cut. discriminate. Qed.

Lemma cut_at_no_colon s : (cut_at ":" s).2 = None -> (cut_at ":" s).1 = s.
Proof.
  induction s as [|a s IH]; simpl; [reflexivity|].
  destruct (Ascii.eqb a ":"); simpl; [discriminate|].
  intros Hn. by rewrite IH.
Qed.

Lemma colon_tokens_empty : colon_tokens EmptyString = [].
Proof. reflexivity. Qed.

Example colon_tokens_two :
  colon_tokens "XSpat=1:precisesa" = ["XSpat=1"; "precisesa"]%string.
Proof. reflexivity. Qed.

Example colon_tokens_trailing : colon_tokens "precisesa:" = ["precisesa"]%string.
Proof. reflexivity. Qed.

Example colon_tokens_inner : colon_tokens "a::b" = ["a"; ""; "b"]%string.
Proof. reflexivity. Qed.

(** The tokens, one step of the loop at a time. *)
Lemma colon_tokens_step s :
  s <> EmptyString ->
  colon_tokens s
  = (cut_at ":" s).1 :: colon_tokens (default EmptyString (cut_at ":" s).2).
Proof.
  intros Hs. unfold colon_tokens at 1. rewrite split_colon_cut.
  destruct (cut_at ":" s).2 as [r|] eqn:Hr; simpl.
  - pose proof (split_colon_not_nil r) as Hnil.
    unfold colon_tokens.
    destruct (split_colon r) as [|p ps] eqn:Hsp; [done|].
    rewrite last_cons.
    destruct (last (p :: ps)) as [[|c q]|] eqn:Hl; try reflexivity.
    apply last_None in Hl. done.
  - rewrite cut_at_no_colon by done.
    destruct s; [done|reflexivity].
Qed.

Section Init.
Context {D : Type} `{Double D}.

(** Absent from the sources: the pattern configurations and
    specifications of pattern.h, the spatial dictionary of patternsp.h,
    the loader of the gamma tables, [board_gamma_set] of board.c, and
    [atof] and [atoi] of libc. *)
Variable pattern_config : Type.
Variable spatial_dict : Type.
Variable DEFAULT_PATTERN_CONFIG : pattern_config.
Variable FAST_PATTERN_CONFIG : pattern_config.
Variable set_spat_dict : pattern_config -> spatial_dict -> pattern_config.
Variable spatial_dict_init : bool -> spatial_dict.
Variable features_gamma_init : pattern_config -> string -> features_gamma D.
Variable features_gamma_filename : string.
Variable PATTERN_SPEC_MATCHALL : pattern_spec.
Variable PATTERN_SPEC_MATCHFAST : pattern_spec.
Variable FEAT_MAX : Z.
Variable FEAT_SPATIAL : Z.
Variable FEAT_SELFATARI : Z.
Variable PF_SELFATARI_STUPID : Z.
Variable board_gamma_set : board D -> features_gamma D -> bool -> board D.
Variable atof : string -> D.
Variable atoi : string -> Z.
(** The [double] written 0.06 (line 339). *)
Variable selfatari_default : D.

(** The locals the options set. *)
Record init_locals : Type := {
  l_selfatari : D;
  l_precise_selfatari : bool;
  l_gammafile : string;
  l_xspat : Z
}.

(** Lines 337-343. *)
Definition init_defaults : init_locals :=
  {| l_selfatari := selfatari_default;
     l_precise_selfatari := false;
     l_gammafile := features_gamma_filename;
     l_xspat := -1 |}.

(** Lines 356-374: one option; [None] is [exit(1)]. *)
Definition set_option (optname : string) (optval : option string) (l : init_locals)
    : option init_locals :=
  if bool_decide (strcasecmp optname "selfatari" = 0) && bool_decide (is_Some optval) then
    Some {| l_selfatari := atof (default EmptyString optval);
            l_precise_selfatari := l_precise_selfatari l;
            l_gammafile := l_gammafile l; l_xspat := l_xspat l |}
  else if bool_decide (strcasecmp optname "precisesa" = 0) then
    Some {| l_selfatari := l_selfatari l;
            l_precise_selfatari :=
              match optval with
              | None => true
              | Some v => negb (bool_decide (atoi v = 0))
              end;
            l_gammafile := l_gammafile l; l_xspat := l_xspat l |}
  else if bool_decide (strcasecmp optname "gammafile" = 0) && bool_decide (is_Some optval) then
    Some {| l_selfatari := l_selfatari l;
            l_precise_selfatari := l_precise_selfatari l;
            l_gammafile := default EmptyString optval; l_xspat := l_xspat l |}
  else if bool_decide (strcasecmp optname "xspat" = 0) && bool_decide (is_Some optval) then
    Some {| l_selfatari := l_selfatari l;
            l_precise_selfatari := l_precise_selfatari l;
            l_gammafile := l_gammafile l;
            l_xspat := atoi (default EmptyString optval) |}
  else None.

(** Lines 346-375: the loop over the options; it runs while [*next]. *)
Equations? parse_options (next : string) (l : init_locals) : option init_locals
  by wf (String.length next) lt :=
  parse_options EmptyString l := Some l;
  parse_options (String a s) l with inspect (cut_at ":" (String a s)) := {
    | exist _ (optspec, rest) Hcut
        with set_option (cut_at "=" optspec).1 (cut_at "=" optspec).2 l := {
      | None := None
      | Some l' := parse_options (default EmptyString rest) l' } }.
Proof.
  destruct rest as [r|]; simpl.
  - apply (cut_at_shorter ":" (String a s)) in Hcut. simpl in Hcut. lia.
  - lia.
Qed.

(** Lines 383-385 and 395-397: the kinds of feature [xspat] switches off. *)
Definition apply_xspat (xspat : Z) (spec : pattern_spec) : pattern_spec :=
  fold_left
    (fun sp i =>
       if bool_decide (xspat = 0 /\ i = FEAT_SPATIAL)
          || bool_decide (xspat = 1 /\ i <> FEAT_SPATIAL)
       then <[i := 0]> sp else sp)
    (seqZ 0 FEAT_MAX) spec.

(** Line 392: [char cgammafile[256]] takes the name of the gamma file,
    the "f" and the terminating 0; [stpcpy] and [strcpy] copy without
    looking at the size.  A character of the string is a byte. *)
Definition cgammafile_size : nat := 256.

Definition cgammafile_fits (gammafile : string) : bool :=
  (String.length gammafile + 2 <=? cgammafile_size)%nat.

(** Lines 378-400: the two configurations, and the board told of the
    fast gamma table; or the write past the end of [cgammafile]. *)
Definition configure (l : init_locals) (b : board D)
    : init_result (elo_policy D pattern_config * board D) :=
  let dict := spatial_dict_init false in
  let pc_ := set_spat_dict DEFAULT_PATTERN_CONFIG dict in
  let assess_ :=
    {| ps := apply_xspat (l_xspat l) PATTERN_SPEC_MATCHALL;
       pc := pc_;
       fg := features_gamma_init pc_ (l_gammafile l) |} in
  let cpc := set_spat_dict FAST_PATTERN_CONFIG dict in
  if cgammafile_fits (l_gammafile l) then
    let cps := apply_xspat (l_xspat l) PATTERN_SPEC_MATCHFAST in
    let choose_ :=
      {| ps := if l_precise_selfatari l
               then <[FEAT_SELFATARI := Z.lnot (Z.shiftl 1 PF_SELFATARI_STUPID)]> cps
               else cps;
         pc := cpc;
         fg := features_gamma_init cpc (l_gammafile l ++ "f") |} in
    Initialized
      ({| selfatari := l_selfatari l; choose := choose_; assess := assess_;
          callback := None |},
       board_gamma_set b (fg choose_) (l_precise_selfatari l))
  else Overruns.

Definition playout_elo_init (arg : option string) (b : board D)
    : init_result (elo_policy D pattern_config * board D) :=
  match arg with
  | Some a =>
      match parse_options a init_defaults with
      | Some l => configure l b
      | None => Exits 1
      end
  | None => configure init_defaults b
  end.

(** The gamma file the options name: the value of the last option named
    gammafile, or the default when there is none. *)
Definition chosen_gammafile (ts : list string) : string :=
  match last (List.filter (fun t => String.eqb (lower (option_name t)) "gammafile") ts) with
  | Some t => default EmptyString (option_value t)
  | None => features_gamma_filename
  end.

(** The options taken in turn, until one is rejected. *)
Fixpoint take_options (ts : list string) (l : init_locals) : option init_locals :=
  match ts with
  | [] => Some l
  | t :: ts =>
      match set_option (option_name t) (option_value t) l with
      | None => None
      | Some l' => take_options ts l'
      end
  end.

(** An option ends the process exactly when the specification rejects it. *)
Lemma set_option_exits t (l : init_locals) :
  set_option (option_name t) (option_value t) l = None <-> invalid_option t.
Proof.
  unfold set_option, invalid_option, named.
  rewrite !(bool_decide_ext _ _ (strcasecmp_0 (option_name t) _ eq_refl)).
  assert (~ is_Some (@None string)) as Hnone by (by intros [? ?]).
  assert (forall v : string, is_Some (Some v)) as Hsome by (by eexists).
  destruct (option_value t) as [v|]; repeat case_bool_decide; simpl;
    (split; [try discriminate; intros _|try done; intros Hinv; exfalso]).
  all: try (destruct Hinv as [Hinv|[_ Hinv]]; [apply Hinv; tauto|discriminate]).
  all: try (right; split; [tauto|reflexivity]).
  all: try (left; tauto).
  all: try (by apply Hnone).
  all: try (by destruct (Hsome v)).
  all: try match goal with Hs : ~ is_Some (Some _) |- _ => by destruct Hs end.
  all: try (destruct Hinv as [Hinv|[[Hn|[Hn|Hn]] _]]; [apply Hinv; tauto|congruence..]).
Qed.

(** The loop takes the colon-separated tokens of its string in turn. *)
Lemma parse_options_tokens next l :
  parse_options next l = take_options (colon_tokens next) l.
Proof.
  funelim (parse_options next l).
  - reflexivity.
  - rewrite colon_tokens_step, Hcut by discriminate.
    cbn [fst snd take_options]. unfold option_name, option_value. rewrite Heq.
    assumption.
  - rewrite colon_tokens_step, Hcut by discriminate.
    cbn [fst snd take_options]. unfold option_name, option_value. by rewrite Heq.
Qed.

Lemma take_options_exits ts l :
  take_options ts l = None <-> exists t, t ∈ ts /\ invalid_option t.
Proof.
  revert l; induction ts as [|t ts IH]; intros l; simpl.
  - split; [discriminate|]. by intros (t & Ht%elem_of_nil & _).
  - destruct (set_option (option_name t) (option_value t) l) as [l'|] eqn:E.
    + rewrite IH. split.
      * intros (x & Hx & Hinv). exists x. split; [by apply elem_of_cons; right|done].
      * intros (x & [->|Hx]%elem_of_cons & Hinv).
        -- apply (set_option_exits t l) in Hinv. congruence.
        -- by exists x.
    + split; [|done]. intros _. exists t. split; [by apply elem_of_cons; left|].
      by apply (set_option_exits t l).
Qed.

Lemma playout_elo_init_accepts (arg : string) (b : board D) l :
  parse_options arg init_defaults = Some l ->
  playout_elo_init (Some arg) b = configure l b.
Proof. intros Hl. unfold playout_elo_init. by rewrite Hl. Qed.

Lemma configure_fits (l : init_locals) (b : board D) :
  cgammafile_fits (l_gammafile l) = true ->
  exists r, configure l b = Initialized r.
Proof. intros Hfits. unfold configure. rewrite Hfits. by eexists. Qed.

Lemma configure_returns (l : init_locals) (b : board D) r :
  configure l b = Initialized r -> (String.length (l_gammafile l) <= 254)%nat.
Proof.
  unfold configure, cgammafile_fits, cgammafile_size.
  destruct (_ <=? _)%nat eqn:E; [|done]. intros _.
  apply Nat.leb_le in E. lia.
Qed.

Lemma configure_overruns (l : init_locals) (b : board D) :
  configure l b = Overruns <-> (255 <= String.length (l_gammafile l))%nat.
Proof.
  unfold configure, cgammafile_fits, cgammafile_size.
  destruct (_ <=? _)%nat eqn:E.
  - apply Nat.leb_le in E. split; [done|lia].
  - apply Nat.leb_gt in E. split; [lia|done].
Qed.

(** ** The masks of the two configurations *)

Lemma zero_loop (off : Z -> bool) (l : list Z) (spec : pattern_spec) (i : Z) :
  fold_left (fun sp j => if off j then <[j := 0]> sp else sp) l spec i
  = if bool_decide (i ∈ l) && off i then 0 else spec i.
Proof.
  unfold pattern_spec in *.
  revert spec; induction l as [|j l IH]; intros spec; cbn [fold_left].
  - rewrite bool_decide_eq_false_2; [done|]. by intros ?%elem_of_nil.
  - rewrite IH. destruct (decide (i ∈ l)) as [Hl|Hl].
    + rewrite (bool_decide_eq_true_2 (i ∈ l)) by done.
      rewrite (bool_decide_eq_true_2 (i ∈ j :: l)) by (by apply elem_of_cons; right).
      simpl. destruct (off i) eqn:Hoff; [done|].
      destruct (off j) eqn:Hj; [|done].
      rewrite fn_lookup_insert_ne; [done|]. intros ->. congruence.
    + rewrite (bool_decide_eq_false_2 (i ∈ l)) by done. simpl.
      destruct (decide (j = i)) as [->|Hne].
      * rewrite (bool_decide_eq_true_2 (i ∈ i :: l)) by (by apply elem_of_cons; left).
        simpl.
        destruct (off i); [by rewrite fn_lookup_insert|done].
      * rewrite (bool_decide_eq_false_2 (i ∈ j :: l)).
        2:{ intros [?|?]%elem_of_cons; congruence. }
        simpl. destruct (off j); [by rewrite fn_lookup_insert_ne|done].
Qed.

Lemma apply_xspat_at xspat spec i :
  apply_xspat xspat spec i
  = if bool_decide (0 <= i < FEAT_MAX)
       && (bool_decide (xspat = 0 /\ i = FEAT_SPATIAL)
           || bool_decide (xspat = 1 /\ i <> FEAT_SPATIAL))
    then 0 else spec i.
Proof.
  unfold apply_xspat.
  rewrite (zero_loop (fun i => bool_decide (xspat = 0 /\ i = FEAT_SPATIAL)
                               || bool_decide (xspat = 1 /\ i <> FEAT_SPATIAL))).
  rewrite (bool_decide_ext (i ∈ seqZ 0 FEAT_MAX) (0 <= i < FEAT_MAX)); [done|].
  rewrite elem_of_seqZ. lia.
Qed.

(** X12. The masks [playout_elo_init] leaves in the two configurations,
    kind of feature by kind of feature.  A kind within [0, FEAT_MAX) is
    switched off, its mask 0, when xspat is 0 and the kind is the
    spatial one, or xspat is 1 and the kind is another; every other
    mask is that of [PATTERN_SPEC_MATCHALL] for assess and of
    [PATTERN_SPEC_MATCHFAST] for choose.  With precisesa the self-atari
    mask of choose is [~(1 << PF_SELFATARI_STUPID)], which is not 0,
    also when xspat is 1; assess does not see precisesa.  The masks are
    those of the policy the call returns; it returns none when the name
    of the gamma file does not fit [cgammafile]. *)
Theorem configure_masks (l : init_locals) (b : board D) r (i : Z) :
  configure l b = Initialized r ->
  let pp := r.1 in
  let off := bool_decide (0 <= i < FEAT_MAX)
             && (bool_decide (l_xspat l = 0 /\ i = FEAT_SPATIAL)
                 || bool_decide (l_xspat l = 1 /\ i <> FEAT_SPATIAL)) in
  ps (assess pp) i = (if off then 0 else PATTERN_SPEC_MATCHALL i)
  /\ ps (choose pp) i
     = (if l_precise_selfatari l && bool_decide (i = FEAT_SELFATARI)
        then Z.lnot (Z.shiftl 1 PF_SELFATARI_STUPID)
        else if off then 0 else PATTERN_SPEC_MATCHFAST i)
  /\ Z.lnot (Z.shiftl 1 PF_SELFATARI_STUPID) <> 0.
Proof.
  intros Hr pp off. subst pp off. revert Hr.
  unfold configure. destruct (cgammafile_fits _); [|done]. intros [= <-].
  cbn [fst assess choose ps]. unfold pattern_spec in *.
  split; [apply apply_xspat_at|]. split.
  - destruct (l_precise_selfatari l); simpl; [|apply apply_xspat_at].
    case_bool_decide as Hi.
    + subst i. by rewrite fn_lookup_insert.
    + rewrite fn_lookup_insert_ne by done. apply apply_xspat_at.
  - pose proof (Z.shiftl_nonneg 1 PF_SELFATARI_STUPID) as Hs.
    unfold Z.lnot. lia.
Qed.

(** ** The gamma file *)

Lemma lower_name_eqb t name :
  String.eqb (lower (option_name t)) name
  = bool_decide (lower (option_name t) = name).
Proof.
  destruct (String.eqb _ _) eqn:E.
  - apply String.eqb_eq in E. by rewrite bool_decide_eq_true_2.
  - apply String.eqb_neq in E. by rewrite bool_decide_eq_false_2.
Qed.

Lemma set_option_gammafile t l l' :
  set_option (option_name t) (option_value t) l = Some l' ->
  l_gammafile l'
  = if String.eqb (lower (option_name t)) "gammafile"
    then default EmptyString (option_value t)
    else l_gammafile l.
Proof.
  unfold set_option.
  rewrite !(bool_decide_ext _ _ (strcasecmp_0 (option_name t) _ eq_refl)).
  rewrite lower_name_eqb.
  repeat case_bool_decide; simpl; intros [= <-]; simpl; congruence.
Qed.

Lemma take_options_gammafile ts l l' :
  take_options ts l = Some l' ->
  l_gammafile l'
  = match last (List.filter (fun t => String.eqb (lower (option_name t)) "gammafile") ts) with
    | Some t => default EmptyString (option_value t)
    | None => l_gammafile l
    end.
Proof.
  revert l; induction ts as [|t ts IH]; intros l; simpl.
  - by intros [= <-].
  - destruct (set_option (option_name t) (option_value t) l) as [l1|] eqn:E; [|done].
    intros Hrest. rewrite (IH _ Hrest), (set_option_gammafile _ _ _ E).
    destruct (String.eqb _ _); [|done].
    rewrite last_cons. by destruct (last _).
Qed.

(** X13. When [playout_elo_init] returns a policy, the name of the
    gamma file is that of the last option named gammafile, or
    [features_gamma_filename] when there is none; it has at most 254
    bytes, so that with the "f" and the terminating 0 it fits
    [cgammafile]; the gamma table of assess is loaded from that file
    with the default configuration, the table of choose from the file
    of that name followed by "f" with the fast configuration, both
    given the spatial dictionary. *)
Theorem playout_elo_init_gammafile (arg : string) (b : board D) r :
  playout_elo_init (Some arg) b = Initialized r ->
  let file := chosen_gammafile (colon_tokens arg) in
  let dict := spatial_dict_init false in
  (String.length file <= 254)%nat
  /\ fg (assess r.1)
     = features_gamma_init (set_spat_dict DEFAULT_PATTERN_CONFIG dict) file
  /\ fg (choose r.1)
     = features_gamma_init (set_spat_dict FAST_PATTERN_CONFIG dict) (file ++ "f").
Proof.
  unfold playout_elo_init. rewrite parse_options_tokens.
  destruct (take_options (colon_tokens arg) init_defaults) as [l|] eqn:E; [|done].
  intros Hr.
  assert (chosen_gammafile (colon_tokens arg) = l_gammafile l) as ->.
  { by rewrite (take_options_gammafile _ _ _ E). }
  split; [by apply (configure_returns l b r)|].
  revert Hr. unfold configure. destruct (cgammafile_fits _); [|done].
  intros [= <-]. by split.
Qed.

(** X19. How [playout_elo_init] ends, by its option string.  It exits
    with status 1 exactly when one of the colon-separated tokens has a
    name that, letter case apart, is none of selfatari, precisesa,
    gammafile and xspat, or names selfatari, gammafile or xspat and
    gives no value.  It writes past the end of [cgammafile] exactly
    when no token is such and the name of the gamma file has 255 bytes
    or more.  It returns a policy exactly when no token is such and the
    name has at most 254 bytes. *)
Theorem playout_elo_init_outcomes (arg : string) (b : board D) :
  let tokens := colon_tokens arg in
  let file := chosen_gammafile tokens in
  (playout_elo_init (Some arg) b = Exits 1
   <-> exists t, t ∈ tokens /\ invalid_option t)
  /\ (playout_elo_init (Some arg) b = Overruns
      <-> (forall t, t ∈ tokens -> ~ invalid_option t)
          /\ (255 <= String.length file)%nat)
  /\ ((exists r, playout_elo_init (Some arg) b = Initialized r)
      <-> (forall t, t ∈ tokens -> ~ invalid_option t)
          /\ (String.length file <= 254)%nat).
Proof.
  intros tokens file. unfold playout_elo_init. rewrite parse_options_tokens.
  fold tokens.
  pose proof (take_options_exits tokens init_defaults) as Hexits.
  destruct (take_options tokens init_defaults) as [l|] eqn:E.
  - assert (forall t, t ∈ tokens -> ~ invalid_option t) as Hvalid.
    { intros t Ht Hinv. assert (Some l = None) as Hn; [|discriminate].
      apply Hexits. by exists t. }
    assert (file = l_gammafile l) as Hfile.
    { unfold file. by rewrite (take_options_gammafile _ _ _ E). }
    rewrite Hfile. split; [|split].
    + split.
      * unfold configure. by destruct (cgammafile_fits _).
      * intros Hinv. apply Hexits in Hinv. discriminate.
    + rewrite configure_overruns. tauto.
    + split.
      * intros [r Hr]. split; [done|]. by apply (configure_returns l b r).
      * intros [_ Hlen]. apply configure_fits.
        unfold cgammafile_fits, cgammafile_size. apply Nat.leb_le. lia.
  - assert (exists t, t ∈ tokens /\ invalid_option t) as (t & Ht & Hinv)
      by (by apply Hexits).
    split; [|split].
    + split; [|done]. intros _. by exists t.
    + split; [discriminate|]. intros [Hvalid _]. by destruct (Hvalid t Ht).
    + split; [by intros [r Hr]|]. intros [Hvalid _]. by destruct (Hvalid t Ht).
Qed.

(** ** An empty string, a last colon *)

Lemma split_colon_snoc s :
  split_colon (s ++ ":") = split_colon s ++ [EmptyString].
Proof.
  induction s as [|a s IH]; simpl; [done|].
  destruct (Ascii.eqb a ":"); simpl; [by rewrite IH|].
  rewrite IH. pose proof (split_colon_not_nil s).
  by destruct (split_colon s).
Qed.

Lemma split_colon_last s a :
  Ascii.eqb a ":" = false ->
  exists ps p c, split_colon (s ++ String a EmptyString) = ps ++ [String c p].
Proof.
  intros Ha. induction s as [|x s (ps & p & c & IH)]; simpl.
  - rewrite Ha. by exists [], EmptyString, a.
  - rewrite IH. destruct (Ascii.eqb x ":").
    + by exists (EmptyString :: ps), p, c.
    + destruct ps as [|q ps]; simpl.
      * by exists [], (String c p), x.
      * by exists (String x q :: ps), p, c.
Qed.

Lemma colon_tokens_colon s a :
  Ascii.eqb a ":" = false ->
  colon_tokens (s ++ String a ":") = colon_tokens (s ++ String a EmptyString).
Proof.
  intros Ha. destruct (split_colon_last s a Ha) as (ps & p & c & Hsp).
  replace (s ++ String a ":")%string with ((s ++ String a EmptyString) ++ ":")%string.
  2:{ clear. induction s as [|x s IH]; [done|].
      change (String x ((s ++ String a EmptyString) ++ ":")
              = String x (s ++ String a ":"))%string.
      by rewrite IH. }
  unfold colon_tokens. rewrite split_colon_snoc, Hsp.
  rewrite !last_snoc, removelast_last. done.
Qed.

(** X14. An empty option string is no option string, and a colon after
    the last option changes nothing: [playout_elo_init] ends the same
    way, with the same policy and board when it returns. *)
Theorem playout_elo_init_trailing_colon (b : board D) :
  playout_elo_init (Some EmptyString) b = playout_elo_init None b
  /\ forall (s : string) (a : ascii), a <> ":"%char ->
       playout_elo_init (Some (s ++ String a ":")%string) b
       = playout_elo_init (Some (s ++ String a EmptyString)%string) b.
Proof.
  split; [reflexivity|]. intros s a Ha%Ascii.eqb_neq.
  unfold playout_elo_init. by rewrite !parse_options_tokens, colon_tokens_colon.
Qed.

End Init.

(** * Concrete boards

    A board of 5x5 points with its border: 7 coordinates to the row, the
    point of column x and row y at [7 * y + x], the centre at 24. *)

Section Boards.
Context {D : Type} `{Double D}.

(** The 8 neighbours of [c], a row at a time: in ascending order of
    coordinate. *)
Definition grid_neighbors8 (size : Z) (c : coord_t) : list coord_t :=
  [c - size - 1; c - size; c - size + 1; c - 1; c + 1;
   c + size - 1; c + size; c + size + 1].

(** The weight [ws] gives to [c]; 0 when it lists none. *)
Fixpoint weight_in (ws : list (coord_t * D)) (c : coord_t) : D :=
  match ws with
  | [] => d_zero
  | (x, w) :: rest => if bool_decide (x = c) then w else weight_in rest c
  end.

(** The distribution with the weights [ws], its sums as the invariant
    has them. *)
Definition probdist_of (size : Z) (ws : list (coord_t * D)) : probdist D :=
  {| pd_size := size;
     items := weight_in ws;
     rowtotals := fun y => d_sum (map (weight_in ws) (seqZ (y * size) size));
     total := d_sum (map (weight_in ws) (seqZ 0 (size * size))) |}.

(** The board with the free points [free], the weights [ws] for both
    sides and the contiguity gamma [contiguity.2] at the index
    [contiguity.1]; a move is valid on a free point that is not the ko
    point of its colour, and no point is an eye. *)
Definition board_of (free : list coord_t) (ko_ last : move) (contiguity : Z * D)
    (ws : list (coord_t * D)) (nei : coord_t -> list coord_t) : board D :=
  {| board_size := 7;
     f := free;
     ko := ko_;
     last_move := last;
     gamma := {[ (contiguity.1, 1%Z) := contiguity.2 ]};
     prob := fun _ => probdist_of 7 ws;
     board_is_valid_move := fun m =>
       bool_decide (coord m ∈ free)
       && negb (bool_decide (coord m = coord ko_ /\ color m = color ko_));
     board_is_one_point_eye := fun _ _ => false;
     neighbors8 := nei |}.

(** A sampler for the examples: the first location of the board that is
    not excluded and weighs more than zero. *)
Definition first_pick (d : probdist D) (ign : list coord_t) : coord_t :=
  default pass
    (head (List.filter
             (fun c => negb (bool_decide (c ∈ ign)) && d_ltb d_zero (items d c))
             (seqZ 0 (pd_size d * pd_size d)))).

(** An incremental update that leaves the distribution as it is. *)
Definition no_update (b : board D) (c : coord_t) (s : stone) (d : probdist D)
    : probdist D := d.

(** A matcher for the examples: one feature per point, by the parity of
    the coordinate. *)
Definition parity_match (_ : unit) (_ : pattern_spec) (_ : board D) (m : move)
    : list feature :=
  [(0%Z, (coord m mod 2)%Z)].

(** The policy with the gamma table [fg_] in both configurations and no
    callback. *)
Definition policy_of (fg_ : features_gamma D) : elo_policy D unit :=
  let pset := {| ps := fun _ => 1%Z; pc := tt; fg := fg_ |} in
  {| selfatari := d_zero; choose := pset; assess := pset; callback := None |}.

End Boards.

(** The threshold and the index of the contiguity feature of the
    examples, and the move that is none. *)
Definition eps : Q := 1 # 100.
Definition contiguity_ix : Z := 8.
Definition no_move : move := {| coord := pass; color := S_NONE |}.

(** Black to play, white has just played the centre and black may not
    retake the ko at 17; 8, 17 and 31 are the free points. *)
Definition ko_board : board Q :=
  board_of [8; 17; 31] {| coord := 17; color := S_BLACK |}
    {| coord := 24; color := S_WHITE |} (contiguity_ix, 2%Q)
    [(8, 3%Q); (17, 1%Q); (31, 1%Q)] (grid_neighbors8 7).

(** Gamma 2 for the feature of the even points, 3 for that of the odd. *)
Definition plain_policy : elo_policy Q unit :=
  policy_of {[ (0, 0) := 2%Q; (0, 1) := 3%Q ]}.

(** The locals of the call on [ko_board] when the move is picked, and
    the board it leaves. *)
Definition ko_board_prepared : choose_state Q :=
  choose_contiguity contiguity_ix ko_board
    (ignore_move (choose_entry plain_policy ko_board S_BLACK) (coord (ko ko_board))).

Definition ko_board_after : board Q :=
  with_prob ko_board S_BLACK
    (choose_restore (lpd ko_board_prepared) (pd ko_board_prepared)).

Lemma ko_board_prepare :
  choose_prepare contiguity_ix plain_policy ko_board S_BLACK = Returns ko_board_prepared.
Proof. unfold ko_board_prepared. apply choose_prepare_ko_set; reflexivity. Qed.

Lemma ko_board_run :
  playout_elo_choose eps contiguity_ix first_pick no_update plain_policy
    ko_board S_BLACK (1 # 4)
  = Returns (17, ko_board_after).
Proof.
  apply playout_elo_choose_steps with (st := ko_board_prepared).
  - apply ko_board_prepare.
  - vm_compute. reflexivity.
  - reflexivity.
Qed.

(** C5 fails on the code.  The ko point is drawn: it is muted at line
    200, but being a neighbour of the last move it is muted again and
    enters the local pool at lines 206-211 with its full weight, 1 * 2;
    the pool totals 4, the distribution is left with 5 - 1 - 1 - 1 = 2,
    and the draw 1/4 * (4 + 2) passes the entry of 16 and stops at 17. *)
Lemma ko_point_drawn :
  coord (ko ko_board) = 17
  /\ color (ko ko_board) = S_BLACK
  /\ lpd_entries (lpd ko_board_prepared)
     = [(16, (0 * 2)%Q); (17, (1 * 2)%Q); (18, (0 * 2)%Q); (23, (0 * 2)%Q);
        (25, (0 * 2)%Q); (30, (0 * 2)%Q); (31, (1 * 2)%Q); (32, (0 * 2)%Q)]
  /\ playout_elo_choose eps contiguity_ix first_pick no_update plain_policy
       ko_board S_BLACK (1 # 4)
     = Returns (17, ko_board_after).
Proof.
  split; [reflexivity|]. split; [reflexivity|]. split; [|apply ko_board_run].
  vm_compute. reflexivity.
Qed.

(** The same position in binary64, with weights 7/10, 1/10 and 3/10
    that are rounded, gamma 5/2, threshold 1/100 and the draw 1/4. *)
Definition float_board : board float :=
  board_of [8; 17; 31] {| coord := 17; color := S_BLACK |}
    {| coord := 24; color := S_WHITE |} (contiguity_ix, (5 / 2)%float)
    [(8, (7 / 10)%float); (17, (1 / 10)%float); (31, (3 / 10)%float)]
    (grid_neighbors8 7).

Definition float_policy : elo_policy float unit := policy_of ∅.

Definition float_prepared : choose_state float :=
  choose_contiguity contiguity_ix float_board
    (ignore_move (choose_entry float_policy float_board S_BLACK)
       (coord (ko float_board))).

Definition float_after : board float :=
  with_prob float_board S_BLACK
    (choose_restore (lpd float_prepared) (pd float_prepared)).

Lemma float_board_run :
  playout_elo_choose (1 / 100)%float contiguity_ix first_pick no_update float_policy
    float_board S_BLACK (1 / 4)%float
  = Returns (31, float_after).
Proof.
  apply playout_elo_choose_steps with (st := float_prepared).
  - unfold float_prepared. apply choose_prepare_ko_set; reflexivity.
  - vm_compute. reflexivity.
  - reflexivity.
Qed.

(** C2 at work in binary64: row 2 is muted four times (the ko point 17,
    then 16, 17 and 18), row 4 three times. *)
Lemma restores_totals_witness :
  total (prob float_after S_BLACK)
  = total (pd (choose_entry float_policy float_board S_BLACK))
  /\ forall y, rowtotals (prob float_after S_BLACK) y
               = rowtotals (pd (choose_entry float_policy float_board S_BLACK)) y.
Proof.
  exact (playout_elo_choose_restores_totals unit (1 / 100)%float contiguity_ix
           first_pick no_update float_policy float_board S_BLACK (1 / 4)%float
           31 float_after eq_refl float_board_run).
Defined.

(** C4 at work on [ko_board]. *)
Lemma frame_witness :
  (forall side, pd_same (prob ko_board_after side) (prob ko_board side))
  /\ (forall x, items (prob ko_board_after S_BLACK) x = items (prob ko_board S_BLACK) x)
  /\ (pd_invariant (prob ko_board S_BLACK) -> pd_invariant (prob ko_board_after S_BLACK)).
Proof.
  exact (playout_elo_choose_frame unit eps contiguity_ix first_pick no_update
           plain_policy ko_board S_BLACK (1 # 4) 17 ko_board_after eq_refl ko_board_run).
Defined.

(** C3 at work on [ko_board]: the state before the loop is the one the
    ko point has been muted in, and the table of the board gives the
    contiguity feature the gamma 2. *)
Lemma local_pool_weights_witness :
  let st1 := ignore_move (choose_entry plain_policy ko_board S_BLACK) 17 in
  let nbrs := neighbors8 ko_board (coord (last_move ko_board)) in
  let pool := lpd (choose_contiguity contiguity_ix ko_board st1) in
  let bonus := match gamma ko_board !! (contiguity_ix, 1%Z) with
               | Some g => g
               | None => 1%Q
               end in
  length (lpd_entries pool) = length nbrs
  /\ (forall k c, nbrs !! k = Some c ->
        lpd_entries pool !! k
        = Some (c, (items (pd (fold_left (contiguity_step contiguity_ix ko_board)
                                 (take k nbrs) st1)) c
                    * bonus)%Q)
        /\ items (pd (fold_left (contiguity_step contiguity_ix ko_board)
                        (take k nbrs) st1)) c
           = items (pd (choose_entry plain_policy ko_board S_BLACK)) c)
  /\ lpd_total pool = fold_left Qplus (map snd (lpd_entries pool)) 0%Q.
Proof.
  exact (local_pool_weights unit contiguity_ix plain_policy ko_board S_BLACK _
           (choose_ko_set ko_board S_BLACK (choose_entry plain_policy ko_board S_BLACK)
              eq_refl eq_refl)
           eq_refl).
Defined.

Lemma grid_neighbors8_sorted : Sorted Z.le (grid_neighbors8 7 24).
Proof.
  repeat first [apply Sorted_cons | apply Sorted_nil | apply HdRel_cons | apply HdRel_nil];
    vm_compute; discriminate.
Defined.

(** C10 at work on [ko_board], whose ko point 17 falls between the
    neighbours 16 and 18. *)
Lemma ignores_sorted_witness :
  exists l, ignores_array ko_board_prepared = l ++ [pass]
            /\ Sorted Z.le l
            /\ l ≡ₚ exclusions ko_board.
Proof.
  exact (ignores_sorted_at_pick unit contiguity_ix plain_policy ko_board S_BLACK
           ko_board_prepared ko_board_prepare grid_neighbors8_sorted).
Defined.

(** The same board with the neighbours enumerated from the last to the
    first, and no ko. *)
Definition descending_board : board Q :=
  board_of [8; 17; 31] no_move {| coord := 24; color := S_WHITE |} (contiguity_ix, 2%Q)
    [(8, 3%Q); (17, 1%Q); (31, 1%Q)] (fun c => reverse (grid_neighbors8 7 c)).

Definition descending_prepared : choose_state Q :=
  choose_contiguity contiguity_ix descending_board
    (choose_entry plain_policy descending_board S_BLACK).

(** C10 as stated fails: the array handed to the sampler is not
    ascending when the neighbours are not enumerated in ascending
    order.  The array grows as [32], [31; 32], [31; 30; 32],
    [31; 30; 25; 32], ...: each insertion swaps the last two elements
    and leaves the rest as it is. *)
Lemma ignores_unsorted_descending :
  neighbors8 descending_board (coord (last_move descending_board))
  = [32; 31; 30; 25; 23; 18; 17; 16]
  /\ choose_prepare contiguity_ix plain_policy descending_board S_BLACK
     = Returns descending_prepared
  /\ ignores_array descending_prepared = [31; 30; 25; 23; 18; 17; 16; 32; pass]
  /\ ~ Sorted Z.le (ignores descending_prepared).
Proof.
  split; [reflexivity|]. split.
  { unfold descending_prepared. apply choose_prepare_ko_unset. reflexivity. }
  assert (ignores descending_prepared = [31; 30; 25; 23; 18; 17; 16; 32]) as Hign
    by (vm_compute; reflexivity).
  split.
  - unfold ignores_array. rewrite Hign. reflexivity.
  - rewrite Hign. intros Hs. apply Sorted_inv in Hs as [_ Hhd].
    apply HdRel_inv in Hhd. lia.
Qed.

(** A ko point set for white when black is to play. *)
Definition mismatch_board : board Q :=
  board_of [8; 17; 31] {| coord := 17; color := S_WHITE |} no_move (contiguity_ix, 2%Q)
    [(8, 3%Q); (17, 1%Q); (31, 1%Q)] (grid_neighbors8 7).

(** C6 as stated fails: the process is terminated by the assertion on
    the colour of the ko, with no callback registered and before any
    value is drawn (the last move is a pass: the local pool is empty). *)
Lemma aborts_on_ko_color :
  playout_elo_choose eps contiguity_ix first_pick no_update plain_policy
    mismatch_board S_BLACK 0%Q
  = Aborts ko_color_assertion
  /\ callback plain_policy = None
  /\ is_pass (coord (last_move mismatch_board)) = true
  /\ coord (ko mismatch_board) = 17
  /\ color (ko mismatch_board) = S_WHITE.
Proof.
  split; [vm_compute; reflexivity|]. split; [reflexivity|].
  split; [reflexivity|]. split; reflexivity.
Qed.

(** No ko; 8 and 17 are the free points. *)
Definition quiet_board : board Q :=
  board_of [8; 17] no_move {| coord := 24; color := S_WHITE |} (contiguity_ix, 2%Q)
    [(8, 3%Q); (17, 1%Q)] (grid_neighbors8 7).

Definition quiet_prepared : choose_state Q :=
  choose_contiguity contiguity_ix quiet_board
    (choose_entry plain_policy quiet_board S_BLACK).

(** The ko at 17 carries all the weight there is, 3/200, and the
    contiguity gamma is 1/2. *)
Definition faint_ko_board : board Q :=
  board_of [17] {| coord := 17; color := S_BLACK |} {| coord := 24; color := S_WHITE |}
    (contiguity_ix, 1 # 2) [(17, 3 # 200)] (grid_neighbors8 7).

Definition faint_ko_prepared : choose_state Q :=
  choose_contiguity contiguity_ix faint_ko_board
    (ignore_move (choose_entry plain_policy faint_ko_board S_BLACK)
       (coord (ko faint_ko_board))).

(** C7 as stated fails.  On [quiet_board] the draw 0 picks 16, the first
    neighbour of the last move, whose weight is 0.  On [faint_ko_board]
    the ko point is muted twice, the total of the distribution falls to
    -3/200, the local pool totals 3/400, both are below the threshold
    1/100, and the draw 9/10 picks 16, not [pass]. *)
Lemma zero_weight_drawn :
  (choose_prepare contiguity_ix plain_policy quiet_board S_BLACK = Returns quiet_prepared
   /\ choose_pick eps first_pick quiet_prepared 0%Q = Returns 16
   /\ probdist_one (prob quiet_board S_BLACK) 16 = 0%Q)
  /\ (choose_prepare contiguity_ix plain_policy faint_ko_board S_BLACK
      = Returns faint_ko_prepared
      /\ (lpd_total (lpd faint_ko_prepared) <? eps)%D = true
      /\ (total (pd faint_ko_prepared) <? eps)%D = true
      /\ choose_pick eps first_pick faint_ko_prepared (9 # 10) = Returns 16
      /\ probdist_one (prob faint_ko_board S_BLACK) 16 = 0%Q).
Proof.
  split; [split; [|split]|split; [|split; [|split; [|split]]]].
  - unfold quiet_prepared. apply choose_prepare_ko_unset. reflexivity.
  - vm_compute. reflexivity.
  - reflexivity.
  - unfold faint_ko_prepared. apply choose_prepare_ko_set; reflexivity.
  - vm_compute. reflexivity.
  - vm_compute. reflexivity.
  - vm_compute. reflexivity.
  - reflexivity.
Qed.

(** Faint weights: 1/1000 at 17, nothing else. *)
Definition faint_board : board Q :=
  board_of [17] no_move {| coord := 24; color := S_WHITE |} (contiguity_ix, 2%Q)
    [(17, 1 # 1000)] (grid_neighbors8 7).

Definition faint_prepared : choose_state Q :=
  choose_contiguity contiguity_ix faint_board
    (choose_entry plain_policy faint_board S_BLACK).

Lemma faint_board_prepare :
  choose_prepare contiguity_ix plain_policy faint_board S_BLACK = Returns faint_prepared.
Proof. unfold faint_prepared. apply choose_prepare_ko_unset. reflexivity. Qed.

Lemma first_pick_skips_zero : sampler_skips_zero (first_pick (D:=Q)).
Proof.
  intros d ign. unfold first_pick.
  destruct (List.filter _ _) as [|c rest] eqn:E; simpl; [discriminate|].
  intros _ Hz.
  assert (In c (c :: rest)) as Hin by (by left).
  rewrite <- E in Hin. apply filter_In in Hin as [_ Hc].
  apply andb_prop in Hc as [_ Hc]. simpl in Hc.
  apply negb_true_iff in Hc. rewrite Hz in Hc. discriminate.
Qed.

(** C7 at work: [pass] on [faint_board], whose two totals are 2/1000
    and 0; and the point 17 picked on [ko_board] weighs more than zero. *)
Lemma choose_pick_under_epsilon_witness :
  choose_pick eps first_pick faint_prepared (1 # 2) = Returns pass
  /\ ~ (probdist_one (pd ko_board_prepared) 17%Z == 0)%Q.
Proof.
  split.
  - apply (proj1 (choose_pick_under_epsilon unit eps contiguity_ix first_pick
                    plain_policy faint_board S_BLACK faint_prepared (1 # 2)
                    faint_board_prepare)).
    + vm_compute. discriminate.
    + vm_compute. discriminate.
    + vm_compute. reflexivity.
    + vm_compute. reflexivity.
  - apply (proj2 (choose_pick_under_epsilon unit eps contiguity_ix first_pick
                    plain_policy ko_board S_BLACK ko_board_prepared (1 # 4)
                    ko_board_prepare) first_pick_skips_zero).
    + vm_compute. reflexivity.
    + vm_compute. reflexivity.
    + reflexivity.
Defined.

(** Priors for black on [ko_board], every point considered. *)
Definition assess_map : prior_map Q :=
  {| map_b := ko_board; map_to_play := S_BLACK; consider := fun _ => true |}.

Example assess_map_priors :
  playout_elo_assess parity_match plain_policy assess_map 10
  = [(8, (2 / 5)%Q, 10); (17, (0 / 5)%Q, 10); (31, (3 / 5)%Q, 10)].
Proof. vm_compute. reflexivity. Qed.

Lemma plain_policy_gammas ft g :
  fg (assess plain_policy) !! ft = Some g -> (0 <= g)%Q.
Proof.
  change (fg (assess plain_policy))
    with (<[((0, 0) : feature) := 2%Q]> ({[ ((0, 1) : feature) := 3%Q ]} : gmap feature Q)).
  intros [[_ <-]|[_ Hl]]%lookup_insert_Some; [vm_compute; discriminate|].
  apply lookup_singleton_Some in Hl as [_ <-]. vm_compute. discriminate.
Qed.

(** C8 at work on [assess_map]. *)
Lemma playout_elo_assess_priors_witness :
  let weight := team_gamma parity_match (assess plain_policy)
                  (map_b assess_map) (map_to_play assess_map) in
  let all := probdist_total (assess_probdist parity_match plain_policy assess_map) in
  let priors := playout_elo_assess parity_match plain_policy assess_map 10 in
  priors = List.map (fun c => (c, (weight c / all)%Q, 10))
             (List.filter (consider assess_map) (f (map_b assess_map)))
  /\ (all == d_sum (List.map weight (f (map_b assess_map))))%Q
  /\ (d_sum (List.map (fun e => e.1.2) priors) <= 1)%Q
  /\ forall side d,
       playout_elo_assess parity_match plain_policy
         (on_board assess_map (with_prob (map_b assess_map) side d)) 10 = priors.
Proof.
  refine (playout_elo_assess_priors unit parity_match plain_policy assess_map 10
            _ plain_policy_gammas _ _).
  - apply (bool_decide_unpack _). vm_compute. exact I.
  - intros cfg spec b s d m. reflexivity.
  - vm_compute. reflexivity.
Defined.

(** In binary64: nine free points, no ko, no last move, an empty gamma
    table, so that every point weighs 1; every point is considered. *)
Definition nine_board : board float :=
  board_of [8; 9; 10; 11; 12; 15; 16; 17; 18] no_move no_move
    (contiguity_ix, 2%float) [] (grid_neighbors8 7).

Definition nine_map : prior_map float :=
  {| map_b := nine_board; map_to_play := S_BLACK; consider := fun _ => true |}.

(** C8 as stated fails in the arithmetic of the code.  The candidates
    are distinct, no gamma is negative (the table is empty), the total
    is 9; each prior is 1/9 rounded to binary64, and the nine of them,
    added up in the order of the calls, give 1 + 2^-52, more than 1. *)
Lemma priors_sum_above_one :
  let priors := playout_elo_assess parity_match float_policy nine_map 10 in
  NoDup (f (map_b nine_map))
  /\ fg (assess float_policy) = ∅
  /\ probdist_total (assess_probdist parity_match float_policy nine_map) = 9%float
  /\ List.map (fun e => e.1.2) priors = List.repeat (1 / 9)%float 9
  /\ d_sum (List.map (fun e => e.1.2) priors) = (1 + 1 / 4503599627370496)%float
  /\ PrimFloat.leb (d_sum (List.map (fun e => e.1.2) priors)) 1 = false.
Proof.
  split; [apply (bool_decide_unpack _); vm_compute; exact I|].
  split; [reflexivity|].
  split; [vm_compute; reflexivity|].
  split; [vm_compute; reflexivity|].
  split; vm_compute; reflexivity.
Qed.

(** ** More positions *)

Lemma free_points_distinct : NoDup (f ko_board).
Proof. apply (bool_decide_unpack _). vm_compute. exact I. Qed.

(** [elo_get_probdist] on [ko_board], from a distribution of zeros: 2 at
    8, nothing at the ko point 17, 3 at 31. *)
Lemma elo_get_probdist_sums_witness :
  let w := team_gamma parity_match (choose plain_policy) ko_board S_BLACK in
  let r := (elo_get_probdist parity_match (choose plain_policy) ko_board S_BLACK
              (probdist_alloca 7)).2 in
  (total r == total (probdist_alloca 7)
              + d_sum (List.map (fun c => w c - items (probdist_alloca 7) c)
                         (f ko_board)))%Q
  /\ forall y,
       (rowtotals r y
        == rowtotals (probdist_alloca 7) y
           + d_sum (List.map (fun c => w c - items (probdist_alloca 7) c)
                      (in_row 7 y (f ko_board))))%Q.
Proof.
  exact (elo_get_probdist_sums unit parity_match (choose plain_policy) ko_board
           S_BLACK (probdist_alloca 7) free_points_distinct).
Defined.

Example elo_get_probdist_ko_board :
  let r := elo_get_probdist parity_match (choose plain_policy) ko_board S_BLACK
             (probdist_alloca 7) in
  r.1 = 2 /\ List.map (items r.2) [8; 17; 31] = [2; 0; 3]%Q
  /\ (total r.2 == 5)%Q /\ (rowtotals r.2 1 == 2)%Q /\ (rowtotals r.2 4 == 3)%Q.
Proof. vm_compute. repeat split; reflexivity. Qed.

(** The arrays of the call on [ko_board]: the ko point and the eight
    neighbours of 24. *)
Lemma choose_prepare_capacity_witness :
  ignores ko_board_prepared ≡ₚ exclusions ko_board
  /\ (length (ignores_array ko_board_prepared) <= 10)%nat
  /\ length (browtotals (lpd ko_board_prepared)) = length (ignores ko_board_prepared)
  /\ (length (browtotals (lpd ko_board_prepared)) <= 9)%nat
  /\ (length (lpd_entries (lpd ko_board_prepared)) <= 8)%nat.
Proof.
  apply (choose_prepare_capacity unit contiguity_ix plain_policy ko_board S_BLACK
           ko_board_prepared ko_board_prepare).
  simpl. lia.
Defined.

(** The pick on [ko_board] lands in the local pool. *)
Lemma local_overstab_unreachable_witness :
  exists c, choose_pick eps first_pick ko_board_prepared (1 # 4) = Returns c.
Proof.
  apply (local_overstab_unreachable unit eps contiguity_ix first_pick plain_policy
           ko_board S_BLACK ko_board_prepared (1 # 4) ko_board_prepare).
  - vm_compute. discriminate.
  - reflexivity.
  - discriminate.
  - apply (bool_decide_unpack _). vm_compute. exact I.
Defined.

(** The 17 returned on [ko_board] is a neighbour of the last move. *)
Lemma playout_elo_choose_provenance_witness :
  17 = pass
  \/ (is_pass (coord (last_move ko_board)) = false
      /\ 17 ∈ neighbors8 ko_board (coord (last_move ko_board)))
  \/ (exists st, choose_prepare contiguity_ix plain_policy ko_board S_BLACK = Returns st
                 /\ 17 = first_pick (pd st) (ignores_array st)).
Proof.
  exact (playout_elo_choose_provenance unit eps contiguity_ix first_pick no_update
           plain_policy ko_board S_BLACK (1 # 4) 17 ko_board_after ko_board_run).
Defined.

(** Neither a ko nor a last move; 8, 17 and 31 are the free points. *)
Definition open_board : board Q :=
  board_of [8; 17; 31] no_move no_move (contiguity_ix, 2%Q)
    [(8, 3%Q); (17, 1%Q); (31, 1%Q)] (grid_neighbors8 7).

Lemma playout_elo_choose_quiet_witness :
  exists b',
    playout_elo_choose eps contiguity_ix first_pick no_update plain_policy
      open_board S_BLACK (1 # 4)
    = Returns (if (eps <=? total (prob open_board S_BLACK))%D
               then first_pick (prob open_board S_BLACK) [pass]
               else pass, b')
    /\ prob b' S_BLACK = prob open_board S_BLACK.
Proof.
  apply (playout_elo_choose_quiet unit eps contiguity_ix first_pick no_update
           plain_policy open_board S_BLACK (1 # 4)).
  - reflexivity.
  - reflexivity.
  - reflexivity.
  - vm_compute. discriminate.
  - vm_compute. discriminate.
  - vm_compute. discriminate.
Defined.

Example open_board_pick :
  first_pick (prob open_board S_BLACK) [pass] = 8
  /\ (eps <=? total (prob open_board S_BLACK))%D = true.
Proof. vm_compute. split; reflexivity. Qed.

Lemma first_pick_extensional : sampler_extensional (first_pick (D:=Q)).
Proof.
  intros d d' ign (Hs & _ & _ & Hi). unfold first_pick. rewrite Hs.
  do 2 f_equal. apply List.filter_ext. intros c. by rewrite Hi.
Qed.

(** Calling again on the board the call on [ko_board] left. *)
Lemma playout_elo_choose_again_witness :
  returned_coord (playout_elo_choose eps contiguity_ix first_pick no_update
                    plain_policy ko_board_after S_BLACK (3 # 4))
  = returned_coord (playout_elo_choose eps contiguity_ix first_pick no_update
                      plain_policy ko_board S_BLACK (3 # 4)).
Proof.
  exact (playout_elo_choose_again unit eps contiguity_ix first_pick no_update
           plain_policy ko_board S_BLACK (1 # 4) 17 ko_board_after eq_refl
           first_pick_extensional ko_board_run (3 # 4)).
Defined.

(** A callback that looks at the distribution and leaves it. *)
Definition watch (b : board Q) (to_play : stone) (d : probdist Q) : probdist Q := d.

Definition watched_policy : elo_policy Q unit :=
  playout_elo_callback plain_policy (Some watch).

Definition faint_watched : choose_state Q :=
  choose_contiguity contiguity_ix faint_board
    (choose_entry watched_policy faint_board S_BLACK).

Definition faint_rebuilt : board Q :=
  with_prob faint_board S_BLACK
    (choose_rebuild no_update faint_board S_BLACK (pd faint_watched)).

Lemma faint_watched_prepare :
  choose_prepare contiguity_ix watched_policy faint_board S_BLACK
  = Returns faint_watched.
Proof. unfold faint_watched. apply choose_prepare_ko_unset. reflexivity. Qed.

(** With an update that does nothing the rebuilt total is 0; the total
    of [faint_board] was 1/1000, less than the threshold away. *)
Lemma faint_watched_run :
  playout_elo_choose eps contiguity_ix first_pick no_update watched_policy
    faint_board S_BLACK (1 # 2)
  = Returns (pass, faint_rebuilt).
Proof.
  apply playout_elo_choose_steps with (st := faint_watched).
  - apply faint_watched_prepare.
  - vm_compute. reflexivity.
  - apply choose_repair_rebuilds with (cb := watch); [reflexivity|].
    vm_compute. reflexivity.
Qed.


(** On [faint_ko_board] the one free point is the ko point: black has
    no candidate. *)
Lemma playout_elo_choose_plain_pass_witness :
  playout_elo_choose_plain parity_match eps first_pick plain_policy
    faint_ko_board S_BLACK
  = pass.
Proof.
  apply (playout_elo_choose_plain_pass unit parity_match eps first_pick plain_policy
           faint_ko_board S_BLACK).
  - reflexivity.
  - vm_compute. reflexivity.
  - intros c Hc. apply list_elem_of_singleton in Hc. subst c.
    vm_compute. reflexivity.
Defined.

(** The same variant on [ko_board]: the weights are 2 at 8 and 3 at 31,
    and the sampler of the examples takes the first. *)
Example playout_elo_choose_plain_ko_board :
  playout_elo_choose_plain parity_match eps first_pick plain_policy ko_board S_BLACK
  = 8.
Proof. vm_compute. reflexivity. Qed.

(** Priors that sum to 1 on [assess_map]. *)
Lemma playout_elo_assess_sum_one_witness :
  let priors := playout_elo_assess parity_match plain_policy assess_map 10 in
  List.map (fun e => e.1.1) priors = f (map_b assess_map)
  /\ (d_sum (List.map (fun e => e.1.2) priors) == 1)%Q.
Proof.
  refine (playout_elo_assess_sum_one unit parity_match plain_policy assess_map 10
            free_points_distinct _ _).
  - intros c _. reflexivity.
  - vm_compute. reflexivity.
Defined.

(** The ko point at 8, away from the last move at 24. *)
Definition far_ko_board : board Q :=
  board_of [8; 17; 31] {| coord := 8; color := S_BLACK |}
    {| coord := 24; color := S_WHITE |} (contiguity_ix, 2%Q)
    [(8, 3%Q); (17, 1%Q); (31, 1%Q)] (grid_neighbors8 7).

Definition far_ko_prepared : choose_state Q :=
  choose_contiguity contiguity_ix far_ko_board
    (ignore_move (choose_entry plain_policy far_ko_board S_BLACK)
       (coord (ko far_ko_board))).

Definition far_ko_after : board Q :=
  with_prob far_ko_board S_BLACK
    (choose_restore (lpd far_ko_prepared) (pd far_ko_prepared)).

Lemma far_ko_prepare :
  choose_prepare contiguity_ix plain_policy far_ko_board S_BLACK
  = Returns far_ko_prepared.
Proof. unfold far_ko_prepared. apply choose_prepare_ko_set; reflexivity. Qed.

Lemma far_ko_run :
  playout_elo_choose eps contiguity_ix first_pick no_update plain_policy
    far_ko_board S_BLACK (1 # 4)
  = Returns (17, far_ko_after).
Proof.
  apply playout_elo_choose_steps with (st := far_ko_prepared).
  - apply far_ko_prepare.
  - vm_compute. reflexivity.
  - reflexivity.
Qed.

Lemma far_ko_sampler st :
  choose_prepare contiguity_ix plain_policy far_ko_board S_BLACK = Returns st ->
  first_pick (pd st) (ignores_array st) ∉ ignores st.
Proof.
  rewrite far_ko_prepare. intros [= <-].
  apply (bool_decide_unpack _). vm_compute. exact I.
Qed.

Lemma ko_point_excluded_witness :
  coord (ko far_ko_board) = 8 /\ 17 <> coord (ko far_ko_board).
Proof.
  split; [reflexivity|].
  apply (ko_point_excluded unit eps contiguity_ix first_pick no_update plain_policy
           far_ko_board S_BLACK (1 # 4) 17 far_ko_after far_ko_run).
  - reflexivity.
  - right. apply (bool_decide_unpack _). vm_compute. exact I.
  - exact far_ko_sampler.
Defined.

(** The totals at the pick on [ko_board]: 5 less the ko point 17 and
    the neighbours 17 and 31, and 2 * (1 + 1). *)
Lemma choose_prepare_totals_witness :
  let d0 := pd (choose_entry plain_policy ko_board S_BLACK) in
  let nbrs := if is_pass (coord (last_move ko_board)) then []
              else neighbors8 ko_board (coord (last_move ko_board)) in
  (total (pd ko_board_prepared)
   == total d0 - d_sum (List.map (items d0) (exclusions ko_board)))%Q
  /\ (lpd_total (lpd ko_board_prepared)
      == d_sum (List.map (items d0) nbrs) * contiguity_gamma contiguity_ix ko_board)%Q.
Proof.
  exact (choose_prepare_totals unit contiguity_ix plain_policy ko_board S_BLACK
           ko_board_prepared ko_board_prepare).
Defined.

Example ko_board_totals :
  (total (pd ko_board_prepared) == 2)%Q /\ (lpd_total (lpd ko_board_prepared) == 4)%Q.
Proof. vm_compute. split; reflexivity. Qed.

(** In binary64: the one free point is the ko point, black has no
    candidate and every point is considered. *)
Definition stuck_board : board float :=
  board_of [17] {| coord := 17; color := S_BLACK |}
    {| coord := 24; color := S_WHITE |} (contiguity_ix, 2%float)
    [(17, 1%float)] (grid_neighbors8 7).

Definition stuck_map : prior_map float :=
  {| map_b := stuck_board; map_to_play := S_BLACK; consider := fun _ => true |}.

Lemma stuck_map_priors :
  playout_elo_assess parity_match float_policy stuck_map 10
  = [(17, (0 / 0)%float, 10)].
Proof. vm_compute. reflexivity. Qed.

Lemma playout_elo_assess_no_candidate_witness :
  probdist_total (assess_probdist parity_match float_policy stuck_map) = 0%float
  /\ PrimFloat.is_nan (0 / 0)%float = true.
Proof.
  apply (playout_elo_assess_no_candidate unit parity_match float_policy stuck_map
           10 17 (0 / 0)%float 10).
  - intros x Hx. apply list_elem_of_singleton in Hx. subst x.
    vm_compute. reflexivity.
  - rewrite stuck_map_priors. by apply list_elem_of_singleton.
Defined.

(** The stab 3/2 on [ko_board] passes the entry of 16, of weight 0, and
    stops at the entry of 17, of weight 2. *)
Lemma lpd_scan_partial_sums_witness :
  lpd_scan (3 # 2) (lpd_entries (lpd ko_board_prepared)) = 17.
Proof.
  apply (lpd_scan_partial_sums (3 # 2) (lpd_entries (lpd ko_board_prepared)) 1 17
           (1 * 2)%Q).
  - vm_compute. reflexivity.
  - intros j Hj. assert (j = 0%nat) as -> by lia. vm_compute. reflexivity.
  - vm_compute. discriminate.
Defined.

(** ** Options at work

    [playout_elo_init] with collaborators that do nothing: 12 kinds of
    feature, the spatial one at 9, every gamma table empty. *)
Definition init_on (arg : option string) : init_result (elo_policy Q unit * board Q) :=
  playout_elo_init unit unit tt tt (fun p _ => p) (fun _ => tt) (fun _ _ => ∅)
    "patterns.gamma" (fun _ => 1) (fun _ => 1) 12 9 3 0 (fun b _ _ => b)
    (fun _ => 0%Q) (fun _ => 1) (6 # 100) arg ko_board.

Definition exit_status {P} (r : init_result P) : option Z :=
  match r with
  | Initialized _ => None
  | Exits n => Some n
  | Overruns => None
  end.

Example init_accepts : exit_status (init_on (Some "XSpat=1:precisesa:"%string)) = None.
Proof. vm_compute. reflexivity. Qed.

Example init_rejects_missing_value :
  exit_status (init_on (Some "precisesa:xspat"%string)) = Some 1.
Proof. vm_compute. reflexivity. Qed.

Example init_rejects_unknown :
  exit_status (init_on (Some "gammafile=g::"%string)) = Some 1.
Proof. vm_compute. reflexivity. Qed.

Example init_without_options : exit_status (init_on None) = None.
Proof. reflexivity. Qed.

(** A loader for the examples: the table of a file holds the length of
    the name of the file, as the gamma of one feature. *)
Definition table_named (_ : unit) (file : string) : features_gamma Q :=
  {[ ((0, 0) : feature) := inject_Z (Z.of_nat (String.length file)) ]}.

Definition init_named (arg : option string)
    : init_result (elo_policy Q unit * board Q) :=
  playout_elo_init unit unit tt tt (fun p _ => p) (fun _ => tt) table_named
    "patterns.gamma" (fun _ => 1) (fun _ => 1) 12 9 3 0 (fun b _ _ => b)
    (fun _ => 0%Q) (fun _ => 1) (6 # 100) arg ko_board.

(** Two gamma files named, the second the last. *)
Definition two_gammafiles : string := "gammafile=a:XSPAT=0:GammaFile=bc".

Definition two_gammafiles_locals : init_locals (D:=Q) :=
  {| l_selfatari := 6 # 100; l_precise_selfatari := false;
     l_gammafile := "bc"; l_xspat := 1 |}.

(** The configuration step of [init_named]. *)
Definition configure_named (l : init_locals (D:=Q))
    : init_result (elo_policy Q unit * board Q) :=
  configure unit unit tt tt (fun p _ => p) (fun _ => tt) table_named
    (fun _ => 1) (fun _ => 1) 12 9 3 0 (fun b _ _ => b) l ko_board.

(** What a call that returns has returned. *)
Definition returned {P} (r : init_result P) (otherwise : P) : P :=
  match r with
  | Initialized p => p
  | _ => otherwise
  end.

Lemma configure_named_returns l :
  cgammafile_fits (l_gammafile l) = true ->
  configure_named l = Initialized (returned (configure_named l) (plain_policy, ko_board)).
Proof.
  intros Hfits. unfold configure_named.
  destruct (configure_fits unit unit tt tt (fun p _ => p) (fun _ => tt) table_named
              (fun _ => 1) (fun _ => 1) 12 9 3 0 (fun b _ _ => b) l ko_board Hfits)
    as [r Hr].
  rewrite Hr. reflexivity.
Qed.

Definition two_gammafiles_policy : elo_policy Q unit * board Q :=
  returned (configure_named two_gammafiles_locals) (plain_policy, ko_board).

Lemma two_gammafiles_init :
  init_named (Some two_gammafiles) = Initialized two_gammafiles_policy.
Proof.
  transitivity (configure_named two_gammafiles_locals).
  - apply playout_elo_init_accepts. vm_compute. reflexivity.
  - apply configure_named_returns. reflexivity.
Qed.

Lemma playout_elo_init_gammafile_witness :
  (String.length "bc" <= 254)%nat
  /\ fg (assess two_gammafiles_policy.1) = table_named tt "bc"
  /\ fg (choose two_gammafiles_policy.1) = table_named tt "bcf".
Proof.
  exact (playout_elo_init_gammafile unit unit tt tt (fun p _ => p) (fun _ => tt)
           table_named "patterns.gamma" (fun _ => 1) (fun _ => 1) 12 9 3 0
           (fun b _ _ => b) (fun _ => 0%Q) (fun _ => 1) (6 # 100)
           two_gammafiles ko_board two_gammafiles_policy two_gammafiles_init).
Defined.

(** The locals after xspat=1 and precisesa, and the policy returned:
    the spatial kind is 9, the self-atari kind 3, and
    [PF_SELFATARI_STUPID] is 0. *)
Definition precise_locals : init_locals (D:=Q) :=
  {| l_selfatari := 6 # 100; l_precise_selfatari := true;
     l_gammafile := "patterns.gamma"; l_xspat := 1 |}.

Definition precise_policy : elo_policy Q unit * board Q :=
  returned (configure_named precise_locals) (plain_policy, ko_board).

Lemma configure_masks_witness :
  let pp := precise_policy.1 in
  let off := bool_decide (0 <= 3 < 12)
             && (bool_decide (l_xspat precise_locals = 0 /\ 3 = 9)
                 || bool_decide (l_xspat precise_locals = 1 /\ 3 <> 9)) in
  ps (assess pp) 3 = (if off then 0 else 1)
  /\ ps (choose pp) 3
     = (if l_precise_selfatari precise_locals && bool_decide (3 = 3)
        then Z.lnot (Z.shiftl 1 0)
        else if off then 0 else 1)
  /\ Z.lnot (Z.shiftl 1 0) <> 0.
Proof.
  exact (configure_masks unit unit tt tt (fun p _ => p) (fun _ => tt) table_named
           (fun _ => 1) (fun _ => 1) 12 9 3 0 (fun b _ _ => b)
           precise_locals ko_board precise_policy 3
           (configure_named_returns precise_locals eq_refl)).
Defined.

Example precise_policy_masks :
  init_named (Some "xspat=1:precisesa"%string) = Initialized precise_policy
  /\ List.map (ps (assess precise_policy.1)) [3; 9] = [0; 1]
  /\ List.map (ps (choose precise_policy.1)) [3; 9] = [-2; 1].
Proof.
  split.
  - transitivity (configure_named precise_locals).
    + apply playout_elo_init_accepts. vm_compute. reflexivity.
    + apply configure_named_returns. reflexivity.
  - vm_compute. split; reflexivity.
Qed.

Lemma playout_elo_init_trailing_colon_witness :
  init_named (Some EmptyString) = init_named None
  /\ init_named (Some "xspat=1:"%string) = init_named (Some "xspat=1"%string).
Proof.
  destruct (playout_elo_init_trailing_colon unit unit tt tt (fun p _ => p)
              (fun _ => tt) table_named "patterns.gamma" (fun _ => 1) (fun _ => 1)
              12 9 3 0 (fun b _ _ => b) (fun _ => 0%Q) (fun _ => 1) (6 # 100)
              ko_board) as [Hempty Hcolon].
  split; [exact Hempty|].
  exact (Hcolon "xspat="%string "1"%char ltac:(discriminate)).
Defined.

(** A gamma file whose name has 255 bytes. *)
Definition long_name : string := string_of_list_ascii (List.repeat "a"%char 255).

Definition long_gammafile : string := "gammafile=" ++ long_name.

(** C9 fails on the code.  The option string is one token, named
    gammafile and giving a value: the specification does not reject
    it, and the loop over the options does not exit.  The value has 255
    bytes: at line 392 [stpcpy] fills the 256 bytes of [cgammafile]
    with the name and its terminating 0, and [strcpy] writes the "f"
    over that 0 and a 0 past the end of the array.  The call neither
    exits nor completes; one byte less and it returns. *)
Lemma long_gammafile_overruns :
  String.length long_name = 255%nat
  /\ colon_tokens long_gammafile = [long_gammafile]
  /\ lower (option_name long_gammafile) = "gammafile"%string
  /\ option_value long_gammafile = Some long_name
  /\ ~ invalid_option long_gammafile
  /\ init_named (Some long_gammafile) = Overruns
  /\ exists r, init_named (Some (String.substring 0 264 long_gammafile))
               = Initialized r.
Proof.
  assert (lower (option_name long_gammafile) = "gammafile"%string) as Hname
    by (vm_compute; reflexivity).
  assert (option_value long_gammafile = Some long_name) as Hvalue
    by (vm_compute; reflexivity).
  split; [vm_compute; reflexivity|]. split; [vm_compute; reflexivity|].
  split; [exact Hname|]. split; [exact Hvalue|]. split.
  { intros [Hn|[_ Hv]].
    - apply Hn. right. right. left. exact Hname.
    - rewrite Hvalue in Hv. discriminate. }
  split; [vm_compute; reflexivity|].
  set (l := {| l_selfatari := 6 # 100; l_precise_selfatari := false;
               l_gammafile := String.substring 0 254 long_name;
               l_xspat := -1 |} : init_locals (D:=Q)).
  exists (returned (configure_named l) (plain_policy, ko_board)).
  transitivity (configure_named l).
  - apply playout_elo_init_accepts. vm_compute. reflexivity.
  - apply configure_named_returns. vm_compute. reflexivity.
Qed.
